(** * The [vime-embed] component: a deferred-load, origin-validated
      cross-context messaging bridge

    Shallow embedding of the [Embed] class (a Stencil web component wrapping
    an [<iframe>]) together with the two process-wide variables it shares
    between instances, [connected] and [idCount].

    Every method of the class is a function on an explicit state; what a
    method does to the outside (notifications, preconnect calls, messages
    posted into the iframe) is returned as a list of [Effect]s. *)

From Stdlib Require Import ZArith String List Bool Lia DecimalString.
From Stdlib Require Import DecimalNat.
From stdpp Require Import base tactics option list gmap strings.

Import ListNotations.
Open Scope string_scope.
Open Scope list_scope.

(** ** JavaScript values *)

(** The values that cross the component's boundary untyped ([e.data] and
    [message] are [any], [Params] is a record of such values).  Numbers are
    restricted to integers; nothing below does arithmetic on them. *)
#[warnings="-register-all"]
Inductive JsVal : Type :=
| JsUndefined
| JsNull
| JsBool (b : bool)
| JsNumber (n : Z)
| JsString (s : string)
| JsObject (fields : list (string * JsVal)).

(** [Params] of [utils/network]: a string-keyed record. *)
Definition Params : Type := list (string * JsVal).

(** The truthiness test behind [if (message)]. *)
Definition ToBoolean (v : JsVal) : bool :=
  match v with
  | JsUndefined | JsNull => false
  | JsBool b => b
  | JsNumber n => negb (n =? 0)%Z
  | JsString s => negb (String.eqb s "")
  | JsObject _ => true
  end.

Definition nullish (v : JsVal) : bool :=
  match v with
  | JsUndefined | JsNull => true
  | _ => false
  end.

(** [a ?? b] *)
Definition coalesce (a b : JsVal) : JsVal := if nullish a then b else a.

(** [f?.(x)]: [undefined] when [f] is absent. *)
Definition optional_call (f : option (JsVal -> JsVal)) (x : JsVal) : JsVal :=
  match f with
  | Some g => g x
  | None => JsUndefined
  end.

(** [target ?? '*'] for an optional string argument. *)
Definition coalesce_string (a : option string) (b : string) : string :=
  match a with
  | Some s => s
  | None => b
  end.

(** Outcome of an expression that may throw. *)
Inductive Completion (A : Type) : Type :=
| Normal (a : A)
| Throw.
Arguments Normal {A} a.
Arguments Throw {A}.

(** ** The DOM objects the component touches *)

(** A [WindowProxy], compared by identity. *)
Definition Window : Type := nat.

(** An [<iframe>] element as [this.iframe] sees it: its [contentWindow] is
    [null] while the element has no browsing context. *)
Record HTMLIFrameElement : Type := { contentWindow : option Window }.

(** What [e.source] and [this.iframe?.contentWindow] can evaluate to. *)
Inductive JsRef : Type :=
| RefUndefined
| RefNull
| RefWindow (w : Window).

#[global] Instance JsRef_eq_dec : EqDecision JsRef.
Proof. solve_decision. Defined.

(** [a === b] on references. *)
Definition strict_equal (a b : JsRef) : bool := bool_decide (a = b).

Module MessageEvent.
(** The fields of a [MessageEvent] read by the component; [source] is
    [null] or a window. *)
Record t : Type := {
  source : option Window;
  origin : string;
  data : JsVal
}.

Definition source_ref (e : t) : JsRef :=
  match source e with
  | Some w => RefWindow w
  | None => RefNull
  end.
End MessageEvent.

(** The attributes [render] puts on the [<iframe>]. *)
Record IframeProps : Type := {
  attr_id : option string;
  attr_title : string;
  attr_src : option string;
  attr_allowfullscreen : string;
  attr_allow : string
}.

(** ** What the component does to the outside *)

Inductive Effect : Type :=
| EmbedSrcChange (url : string)
  (** [this.embedSrcChange.emit(url)] *)
| EmbedMessage (message : JsVal)
  (** [this.embedMessage.emit(message)] *)
| EmbedLoaded
  (** [this.embedLoaded.emit()] *)
| Preconnect (key url : string) (issued : bool)
  (** a call [preconnect(url)], guarded by [connected.has(key)], and what it
      returned *)
| WindowPostMessage (w : Window) (data : JsVal) (targetOrigin : string)
  (** [w.postMessage(data, targetOrigin)] *)
| ObserveViewport
  (** [onElementEntersViewport(this.el, callback)] *)
| DisposeObserver
  (** the cleanup function returned by [onElementEntersViewport] is called *)
| Rendered (props : IframeProps).
  (** [render()] returned an [<iframe>] with these attributes *)

(** ** Collaborators imported by the component *)

(** [appendParamsToURL] and [preconnect] come from [utils/network], and
    [JSON.stringify] and the URL parser from the host.  [preconnect] acts on
    the document (it is the hint mechanism) and reports whether it issued a
    hint.  [URL_parses] tells whether the host's URL parser accepts a
    string. *)
Class Collaborators : Type := {
  Document : Type;
  appendParamsToURL : string -> Params -> string;
  preconnect : string -> Document -> bool * Document;
  JSON_stringify : JsVal -> Completion JsVal;
  URL_parses : string -> bool
}.

(** Modelled from the spec: [isString] of [utils/unit] is not part of the
    sources; on the [origin] prop, typed [string | undefined], it tells
    whether an expected origin was configured. *)
Definition isString (v : option string) : bool :=
  match v with
  | Some _ => true
  | None => false
  end.

(** ** Component state *)

Record Embed : Type := {
  id : option string;
  intersectionObserverCleanup : bool;
  iframe : option HTMLIFrameElement;
  srcWithParams : string;
  hasEnteredViewport : bool;
  embedSrc : string;
  mediaTitle : string;
  lazy : bool;
  params : Params;
  origin : option string;
  preconnections : list string;
  decoder : option (JsVal -> JsVal)
}.

(** The field initialisers of the class. *)
Definition Embed_new : Embed := {|
  id := None;
  intersectionObserverCleanup := false;
  iframe := None;
  srcWithParams := "";
  hasEnteredViewport := false;
  embedSrc := "";
  mediaTitle := "";
  lazy := true;
  params := [];
  origin := None;
  preconnections := [];
  decoder := None
|}.

Definition with_id (v : option string) (st : Embed) : Embed :=
  {| id := v;
     intersectionObserverCleanup := intersectionObserverCleanup st;
     iframe := iframe st; srcWithParams := srcWithParams st;
     hasEnteredViewport := hasEnteredViewport st; embedSrc := embedSrc st;
     mediaTitle := mediaTitle st; lazy := lazy st; params := params st;
     origin := origin st; preconnections := preconnections st;
     decoder := decoder st |}.

Definition with_intersectionObserverCleanup (v : bool) (st : Embed) : Embed :=
  {| id := id st;
     intersectionObserverCleanup := v;
     iframe := iframe st; srcWithParams := srcWithParams st;
     hasEnteredViewport := hasEnteredViewport st; embedSrc := embedSrc st;
     mediaTitle := mediaTitle st; lazy := lazy st; params := params st;
     origin := origin st; preconnections := preconnections st;
     decoder := decoder st |}.

Definition with_iframe (v : option HTMLIFrameElement) (st : Embed) : Embed :=
  {| id := id st;
     intersectionObserverCleanup := intersectionObserverCleanup st;
     iframe := v; srcWithParams := srcWithParams st;
     hasEnteredViewport := hasEnteredViewport st; embedSrc := embedSrc st;
     mediaTitle := mediaTitle st; lazy := lazy st; params := params st;
     origin := origin st; preconnections := preconnections st;
     decoder := decoder st |}.

Definition with_srcWithParams (v : string) (st : Embed) : Embed :=
  {| id := id st;
     intersectionObserverCleanup := intersectionObserverCleanup st;
     iframe := iframe st; srcWithParams := v;
     hasEnteredViewport := hasEnteredViewport st; embedSrc := embedSrc st;
     mediaTitle := mediaTitle st; lazy := lazy st; params := params st;
     origin := origin st; preconnections := preconnections st;
     decoder := decoder st |}.

Definition with_hasEnteredViewport (v : bool) (st : Embed) : Embed :=
  {| id := id st;
     intersectionObserverCleanup := intersectionObserverCleanup st;
     iframe := iframe st; srcWithParams := srcWithParams st;
     hasEnteredViewport := v; embedSrc := embedSrc st;
     mediaTitle := mediaTitle st; lazy := lazy st; params := params st;
     origin := origin st; preconnections := preconnections st;
     decoder := decoder st |}.

Definition with_embedSrc (v : string) (st : Embed) : Embed :=
  {| id := id st;
     intersectionObserverCleanup := intersectionObserverCleanup st;
     iframe := iframe st; srcWithParams := srcWithParams st;
     hasEnteredViewport := hasEnteredViewport st; embedSrc := v;
     mediaTitle := mediaTitle st; lazy := lazy st; params := params st;
     origin := origin st; preconnections := preconnections st;
     decoder := decoder st |}.

Definition with_mediaTitle (v : string) (st : Embed) : Embed :=
  {| id := id st;
     intersectionObserverCleanup := intersectionObserverCleanup st;
     iframe := iframe st; srcWithParams := srcWithParams st;
     hasEnteredViewport := hasEnteredViewport st; embedSrc := embedSrc st;
     mediaTitle := v; lazy := lazy st; params := params st;
     origin := origin st; preconnections := preconnections st;
     decoder := decoder st |}.

Definition with_lazy (v : bool) (st : Embed) : Embed :=
  {| id := id st;
     intersectionObserverCleanup := intersectionObserverCleanup st;
     iframe := iframe st; srcWithParams := srcWithParams st;
     hasEnteredViewport := hasEnteredViewport st; embedSrc := embedSrc st;
     mediaTitle := mediaTitle st; lazy := v; params := params st;
     origin := origin st; preconnections := preconnections st;
     decoder := decoder st |}.

Definition with_params (v : Params) (st : Embed) : Embed :=
  {| id := id st;
     intersectionObserverCleanup := intersectionObserverCleanup st;
     iframe := iframe st; srcWithParams := srcWithParams st;
     hasEnteredViewport := hasEnteredViewport st; embedSrc := embedSrc st;
     mediaTitle := mediaTitle st; lazy := lazy st; params := v;
     origin := origin st; preconnections := preconnections st;
     decoder := decoder st |}.

Definition with_origin (v : option string) (st : Embed) : Embed :=
  {| id := id st;
     intersectionObserverCleanup := intersectionObserverCleanup st;
     iframe := iframe st; srcWithParams := srcWithParams st;
     hasEnteredViewport := hasEnteredViewport st; embedSrc := embedSrc st;
     mediaTitle := mediaTitle st; lazy := lazy st; params := params st;
     origin := v; preconnections := preconnections st;
     decoder := decoder st |}.

Definition with_preconnections (v : list string) (st : Embed) : Embed :=
  {| id := id st;
     intersectionObserverCleanup := intersectionObserverCleanup st;
     iframe := iframe st; srcWithParams := srcWithParams st;
     hasEnteredViewport := hasEnteredViewport st; embedSrc := embedSrc st;
     mediaTitle := mediaTitle st; lazy := lazy st; params := params st;
     origin := origin st; preconnections := v;
     decoder := decoder st |}.

Definition with_decoder (v : option (JsVal -> JsVal)) (st : Embed) : Embed :=
  {| id := id st;
     intersectionObserverCleanup := intersectionObserverCleanup st;
     iframe := iframe st; srcWithParams := srcWithParams st;
     hasEnteredViewport := hasEnteredViewport st; embedSrc := embedSrc st;
     mediaTitle := mediaTitle st; lazy := lazy st; params := params st;
     origin := origin st; preconnections := preconnections st;
     decoder := v |}.

(** ** Process-wide state *)

(** The module-level [idCount] and [connected], and the document that
    [preconnect] acts on. *)
Record Global `{Collaborators} : Type := {
  idCount : nat;
  connected : gset string;
  document : Document
}.

Section Component.
Context `{Collaborators}.

Definition with_idCount (n : nat) (g : Global) : Global :=
  {| idCount := n; connected := connected g; document := document g |}.

(** One method call: the shared state and the instance afterwards, and
    the effects in the order they happened. *)
Definition Outcome : Type := Global * Embed * list Effect.

(** [if (preconnect(url)) connected.add(key);] *)
Definition preconnect_and_record (key url : string) (g : Global)
  : Global * list Effect :=
  let '(issued, doc) := preconnect url (document g) in
  ({| idCount := idCount g;
      connected := if issued then {[key]} ∪ connected g else connected g;
      document := doc |},
   [Preconnect key url issued]).

(** The [@Watch('srcWithParams')] method. *)
Definition srcWithParamsChange (g : Global) (st : Embed) : Outcome :=
  let '(g', hints) :=
    if negb (hasEnteredViewport st)
       && negb (bool_decide (embedSrc st ∈ connected g))
    then preconnect_and_record (embedSrc st) (srcWithParams st) g
    else (g, [])
  in (g', st, hints ++ [EmbedSrcChange (srcWithParams st)]).

(** Assignment to the [@State() srcWithParams] member.  Stencil stores
    the value and calls the member's [@Watch] methods only when the value
    assigned is not identical ([!==]) to the current one. *)
Definition assign_srcWithParams (v : string) (g : Global) (st : Embed)
  : Outcome :=
  if bool_decide (v = srcWithParams st) then (g, st, [])
  else srcWithParamsChange g (with_srcWithParams v st).

(** The [@Watch('embedSrc') @Watch('params')] method. *)
Definition srcChange (g : Global) (st : Embed) : Outcome :=
  assign_srcWithParams (appendParamsToURL (embedSrc st) (params st)) g st.

(** [.forEach((connection) => { if (preconnect(connection))
    connected.add(connection); })] *)
Fixpoint preconnect_each (cs : list string) (g : Global)
  : Global * list Effect :=
  match cs with
  | [] => (g, [])
  | c :: cs' =>
      let '(g1, out1) := preconnect_and_record c c g in
      let '(g2, out2) := preconnect_each cs' g1 in
      (g2, out1 ++ out2)
  end.

(** The [@Watch('preconnections')] method.  [filter] builds its result
    before [forEach] starts. *)
Definition preconnectionsChange (g : Global) (st : Embed) : Outcome :=
  if hasEnteredViewport st then (g, st, [])
  else
    let pending :=
      filter (fun connection => connection ∉ connected g)
             (preconnections st) in
    let '(g', out) := preconnect_each pending g in
    (g', st, out).

(** [connectedCallback]; the callback handed to [onElementEntersViewport]
    is [viewportCallback] below. *)
Definition connectedCallback (g : Global) (st : Embed) : Outcome :=
  let '(g', st', out) :=
    srcChange g (with_intersectionObserverCleanup true st) in
  (g', st', ObserveViewport :: out).

(** [() => { this.hasEnteredViewport = true; }] *)
Definition viewportCallback (st : Embed) : Embed :=
  with_hasEnteredViewport true st.

(** [genIframeId] *)
Definition genIframeId (g : Global) (st : Embed) : Global * Embed :=
  let n := S (idCount g) in
  (with_idCount n g,
   with_id
     (Some ("vime-iframe-" ++ NilEmpty.string_of_uint (Nat.to_uint n))%string)
     st).

Definition componentWillLoad (g : Global) (st : Embed) : Outcome :=
  let '(g', st') := genIframeId g st in (g', st', []).

(** [this.intersectionObserverCleanup?.()] *)
Definition disconnectedCallback (st : Embed) : list Effect :=
  if intersectionObserverCleanup st then [DisposeObserver] else [].

(** [this.iframe?.contentWindow] *)
Definition iframe_contentWindow (st : Embed) : JsRef :=
  match iframe st with
  | None => RefUndefined
  | Some el =>
      match contentWindow el with
      | None => RefNull
      | Some w => RefWindow w
      end
  end.

(** [const originMatches] of [onWindowMessage]. *)
Definition originMatches (e : MessageEvent.t) (st : Embed) : bool :=
  strict_equal (MessageEvent.source_ref e) (iframe_contentWindow st)
  && (negb (isString (origin st))
      || bool_decide (origin st = Some (MessageEvent.origin e))).

(** The [@Listen('message', { target: 'window' })] method. *)
Definition onWindowMessage (e : MessageEvent.t) (st : Embed) : list Effect :=
  if negb (originMatches e st) then []
  else
    let message :=
      coalesce (optional_call (decoder st) (MessageEvent.data e))
               (MessageEvent.data e) in
    if ToBoolean message then [EmbedMessage message] else [].

(** The target origins [Window.postMessage] accepts: ['*'], ['/'] and
    what parses as a URL.  For any other string it throws a [SyntaxError]
    and posts nothing. *)
Definition accepts_targetOrigin (t : string) : bool :=
  bool_decide (t = "*") || bool_decide (t = "/") || URL_parses t.

(** The [@Method() async postMessage].  Optional chaining skips the whole
    call, arguments included, when [this.iframe] or its [contentWindow]
    is missing.  Otherwise the arguments are evaluated, [JSON.stringify]
    first, and the window's [postMessage] is called.  [Throw] is the
    rejection of the returned promise. *)
Definition postMessage (message : JsVal) (target : option string)
    (st : Embed) : Completion (list Effect) :=
  match iframe st with
  | None => Normal []
  | Some el =>
      match contentWindow el with
      | None => Normal []
      | Some w =>
          match JSON_stringify message with
          | Throw => Throw
          | Normal s =>
              if accepts_targetOrigin (coalesce_string target "*")
              then Normal [WindowPostMessage w s (coalesce_string target "*")]
              else Throw
          end
      end
  end.

Definition onLoad (st : Embed) : list Effect := [EmbedLoaded].

(** [render]: the attributes of the [<iframe>]. *)
Definition render (st : Embed) : IframeProps :=
  {| attr_id := id st;
     attr_title := mediaTitle st;
     attr_src :=
       if negb (lazy st) || hasEnteredViewport st
       then Some (srcWithParams st) else None;
     attr_allowfullscreen := "1";
     attr_allow := "autoplay; encrypted-media; picture-in-picture" |}.

End Component.

(** ** The host: prop assignments, life-cycle calls and events *)

(** What can happen to one instance.  The [Set...] operations are
    assignments to [@Prop] members from the owning page; [SetParams] and
    [SetPreconnections] assign an object that is not the one the prop
    holds.  [MutateParams] and [MutatePreconnections] are the page changing
    the object the prop holds in place (assigning that same object again
    included): the prop then reads the new content. *)
Inductive Op : Type :=
| Connect
| WillLoad
| Disconnect
| EntersViewport
| SetEmbedSrc (v : string)
| SetParams (v : Params)
| SetMediaTitle (v : string)
| SetLazy (v : bool)
| SetOrigin (v : option string)
| SetPreconnections (v : list string)
| SetDecoder (v : option (JsVal -> JsVal))
| Render (el : HTMLIFrameElement)
| IframeLoaded
| Message (e : MessageEvent.t)
| Post (message : JsVal) (target : option string)
| MutateParams (v : Params)
| MutatePreconnections (v : list string).

Section Host.
Context `{Collaborators}.

(** The class instance exists.  Stencil creates it when the element is
    first attached and calls [connectedCallback] on it at once, which is
    where [intersectionObserverCleanup] is assigned; no code clears that
    member. *)
Definition created (st : Embed) : bool := intersectionObserverCleanup st.

(** A [@Watch] method called by Stencil after a prop was assigned.  Before
    the instance exists the value is only stored, and handed to the instance
    when it is created. *)
Definition run_watcher (method : Global -> Embed -> Outcome) (g : Global)
    (st : Embed) : Outcome :=
  if created st then method g st else (g, st, []).

(** One operation on one instance.  A prop runs its [@Watch] methods when
    the value assigned is not identical ([!==]) to the current one: for a
    string, a different string; for an object or array, another reference
    ([SetParams], [SetPreconnections]).  A change in place runs no watcher
    ([MutateParams], [MutatePreconnections]).  [EntersViewport] is the
    viewport callback being invoked, which the model allows at any moment.
    [Render] is a render pass: [render()] is evaluated and the [ref]
    callback stores the element. *)
Definition dispatch (op : Op) (g : Global) (st : Embed) : Outcome :=
  match op with
  | Connect => connectedCallback g st
  | WillLoad => componentWillLoad g st
  | Disconnect => (g, st, disconnectedCallback st)
  | EntersViewport => (g, viewportCallback st, [])
  | SetEmbedSrc v =>
      if bool_decide (v = embedSrc st) then (g, st, [])
      else run_watcher srcChange g (with_embedSrc v st)
  | SetParams v => run_watcher srcChange g (with_params v st)
  | SetMediaTitle v => (g, with_mediaTitle v st, [])
  | SetLazy v => (g, with_lazy v st, [])
  | SetOrigin v => (g, with_origin v st, [])
  | SetPreconnections v =>
      run_watcher preconnectionsChange g (with_preconnections v st)
  | SetDecoder v => (g, with_decoder v st, [])
  | Render el => (g, with_iframe (Some el) st, [Rendered (render st)])
  | IframeLoaded => (g, st, onLoad st)
  | Message e => (g, st, onWindowMessage e st)
  | Post message target =>
      match postMessage message target st with
      | Normal out => (g, st, out)
      | Throw => (g, st, [])
      end
  | MutateParams v => (g, with_params v st, [])
  | MutatePreconnections v => (g, with_preconnections v st, [])
  end.

(** The page: the shared state, the instances on it, and everything they
    did so far, each effect tagged with the instance it came from. *)
Record World : Type := {
  shared : Global;
  instances : list Embed;
  history : list (nat * Effect)
}.

Definition step (w : World) (a : nat * Op) : World :=
  match instances w !! a.1 with
  | None => w
  | Some st =>
      let '(g', st', out) := dispatch a.2 (shared w) st in
      {| shared := g';
         instances := <[a.1 := st']> (instances w);
         history := history w ++ map (pair a.1) out |}
  end.

Definition run (w : World) (ops : list (nat * Op)) : World :=
  foldl step w ops.

(** The state of instance [i], if there is one. *)
Definition instance (i : nat) (w : World) : option Embed :=
  instances w !! i.

(** A page on which nothing has happened yet. *)
Definition World_new (doc : Document) (sts : list Embed) : World :=
  {| shared := {| idCount := 0; connected := ∅; document := doc |};
     instances := sts;
     history := [] |}.

(** The hints that were really issued under key [k]: the [preconnect]
    calls guarded by [connected.has(k)] that returned [true]. *)
Definition is_hint_for (k : string) (e : Effect) : bool :=
  match e with
  | Preconnect key _ issued => bool_decide (key = k) && issued
  | _ => false
  end.

Definition hints_issued (k : string) (h : list (nat * Effect)) : nat :=
  length (List.filter (fun x => is_hint_for k x.2) h).

Definition is_preconnect (e : Effect) : bool :=
  match e with
  | Preconnect _ _ _ => true
  | _ => false
  end.

(** The values of [hasEnteredViewport] of instance [i] along a run, the
    starting value first. *)
Fixpoint flag_history (i : nat) (w : World) (ops : list (nat * Op))
  : list (option bool) :=
  (hasEnteredViewport <$> instance i w) ::
  match ops with
  | [] => []
  | a :: ops' => flag_history i (step w a) ops'
  end.

(** Going from [false] to [true] between two consecutive values. *)
Definition is_rise (x : option bool) (next : option (option bool)) : bool :=
  match x, next with
  | Some false, Some (Some true) => true
  | _, _ => false
  end.

(** How often a sequence of flag values goes from [false] to [true]. *)
Fixpoint rises (l : list (option bool)) : nat :=
  match l with
  | [] => 0
  | x :: l' => (if is_rise x (head l') then 1 else 0) + rises l'
  end.

(** Operation [a] is the viewport callback of instance [i]. *)
Definition enters (i : nat) (a : nat * Op) : bool :=
  Nat.eqb a.1 i &&
  match a.2 with
  | EntersViewport => true
  | _ => false
  end.

(** The hints issued under key [k] among the effects of one call. *)
Definition count_hints (k : string) (out : list Effect) : nat :=
  length (List.filter (is_hint_for k) out).

(** [1] when [connected.has(k)], [0] otherwise. *)
Definition recorded (k : string) (g : Global) : nat :=
  if bool_decide (k ∈ connected g) then 1 else 0.

(** The payloads of the [embedSrcChange] notifications among some effects. *)
Definition embedSrcChanges (out : list Effect) : list string :=
  omap (fun e => match e with
                 | EmbedSrcChange url => Some url
                 | _ => None
                 end) out.

(** The outcome [o] of reconfiguring [st] to the resource URL [src'] and
    the parameters [params']: the composed URL is recomputed from them, and
    it is notified, once, when it is not the composed URL the instance
    already had. *)
Definition recomposed (src' : string) (params' : Params) (st : Embed)
    (o : Outcome) : Prop :=
  embedSrc o.1.2 = src' /\
  params o.1.2 = params' /\
  srcWithParams o.1.2 = appendParamsToURL src' params' /\
  hasEnteredViewport o.1.2 = hasEnteredViewport st /\
  embedSrcChanges o.2 =
    if bool_decide (appendParamsToURL src' params' = srcWithParams st)
    then [] else [appendParamsToURL src' params'].

End Host.

(** ** A concrete host, for running the model *)

(** An integer in decimal notation. *)
Definition decimal (n : Z) : string := NilZero.string_of_int (Z.to_int n).

(** Modelled from the spec: the query-string serialisation used by
    [appendParamsToURL] is not part of the sources; a value is written the
    way JavaScript converts it to a string. *)
Definition query_value (v : JsVal) : string :=
  match v with
  | JsUndefined => "undefined"
  | JsNull => "null"
  | JsBool b => if b then "true" else "false"
  | JsNumber n => decimal n
  | JsString s => s
  | JsObject _ => "[object Object]"
  end.

Definition serializeQueryString (p : Params) : string :=
  String.concat "&" (map (fun kv => (kv.1 ++ "=" ++ query_value kv.2)%string) p).

(** Modelled from the spec: [appendParamsToURL] of [utils/network] is not
    part of the sources.  The composed URL is the resource URL followed by
    the parameters as a query string, and the resource URL itself when
    there are no parameters. *)
Definition appendParamsToURL_spec (url : string) (p : Params) : string :=
  match p with
  | [] => url
  | _ => (url ++ "?" ++ serializeQueryString p)%string
  end.

(** Modelled from the spec: [preconnect] of [utils/network] is not part of
    the sources.  This one is a browser in which every hint is issued: the
    document is the list of [<link>] hints appended to its head. *)
Definition preconnect_browser (url : string) (links : list string)
  : bool * list string :=
  (true, links ++ [url]).

(** The double quote and the backslash. *)
Definition quote_char : Ascii.ascii := Ascii.ascii_of_nat 34.
Definition backslash_char : Ascii.ascii := Ascii.ascii_of_nat 92.

Fixpoint JSON_escape (s : string) : string :=
  match s with
  | EmptyString => EmptyString
  | String c s' =>
      if Ascii.eqb c quote_char || Ascii.eqb c backslash_char
      then String backslash_char (String c (JSON_escape s'))
      else String c (JSON_escape s')
  end.

Definition JSON_quote (s : string) : string :=
  String quote_char (JSON_escape s ++ String quote_char EmptyString)%string.

(** A stand-in for the host's [JSON.stringify]: quotes and backslashes in
    strings are escaped, members whose value is [undefined] are left out,
    and there is no text for [undefined] itself. *)
Fixpoint JSON_text (v : JsVal) : option string :=
  match v with
  | JsUndefined => None
  | JsNull => Some "null"
  | JsBool b => Some (if b then "true" else "false")
  | JsNumber n => Some (decimal n)
  | JsString s => Some (JSON_quote s)
  | JsObject fields =>
      let members :=
        (fix members (fs : list (string * JsVal)) : list string :=
           match fs with
           | [] => []
           | (k, x) :: fs' =>
               match JSON_text x with
               | Some t => (JSON_quote k ++ ":" ++ t)%string :: members fs'
               | None => members fs'
               end
           end) fields in
      Some ("{" ++ String.concat "," members ++ "}")%string
  end.

Definition JSON_stringify_text (v : JsVal) : Completion JsVal :=
  Normal (match JSON_text v with
          | Some t => JsString t
          | None => JsUndefined
          end).

(** A stand-in for the host's URL parser: a string is taken to parse when
    it starts with a scheme, a letter followed by letters, digits, [+], [-]
    or [.] up to a colon. *)
Definition is_letter (c : Ascii.ascii) : bool :=
  let n := Ascii.nat_of_ascii c in
  (Nat.leb 65 n && Nat.leb n 90) || (Nat.leb 97 n && Nat.leb n 122).

Definition is_scheme_char (c : Ascii.ascii) : bool :=
  let n := Ascii.nat_of_ascii c in
  is_letter c || (Nat.leb 48 n && Nat.leb n 57)
  || Nat.eqb n 43 || Nat.eqb n 45 || Nat.eqb n 46.

Fixpoint scheme_ends (s : string) : bool :=
  match s with
  | EmptyString => false
  | String c s' =>
      if Nat.eqb (Ascii.nat_of_ascii c) 58 then true
      else if is_scheme_char c then scheme_ends s' else false
  end.

Definition has_scheme (s : string) : bool :=
  match s with
  | EmptyString => false
  | String c s' => is_letter c && scheme_ends s'
  end.

Definition browser : Collaborators := {|
  Document := list string;
  appendParamsToURL := appendParamsToURL_spec;
  preconnect := preconnect_browser;
  JSON_stringify := JSON_stringify_text;
  URL_parses := has_scheme
|}.

(** ** Sample inputs *)

Definition player_window : Window := 7.
Definition other_window : Window := 8.

(** An instance whose [<iframe>] has been rendered and has a browsing
    context. *)
Definition armed_embed : Embed :=
  with_iframe (Some {| contentWindow := Some player_window |}) Embed_new.

(** A message sent by the instance's own iframe. *)
Definition player_message (d : JsVal) : MessageEvent.t :=
  {| MessageEvent.source := Some player_window;
     MessageEvent.origin := "https://player.example";
     MessageEvent.data := d |}.

(** A message sent by some other window on the page. *)
Definition foreign_message (d : JsVal) : MessageEvent.t :=
  {| MessageEvent.source := Some other_window;
     MessageEvent.origin := "https://player.example";
     MessageEvent.data := d |}.

(** A message sent by the instance's own iframe after it navigated to
    another origin. *)
Definition evil_message (d : JsVal) : MessageEvent.t :=
  {| MessageEvent.source := Some player_window;
     MessageEvent.origin := "https://evil.example";
     MessageEvent.data := d |}.

(** A decoder that understands nothing. *)
Definition decode_nothing (raw : JsVal) : JsVal := JsUndefined.

(** A decoder that answers with the empty string. *)
Definition decode_to_empty_string (raw : JsVal) : JsVal := JsString "".

(** The configuration of the scenario in the specification. *)
Definition scenario_embed : Embed :=
  with_embedSrc "https://player.example/embed/abc"
    (with_params [("autoplay", JsNumber 1)] Embed_new).

Definition scenario_world : @World browser :=
  @World_new browser [] [scenario_embed; Embed_new].

(** The scenario's first instance once it is attached to the page. *)
Definition scenario_connected : Embed :=
  (@connectedCallback browser (shared scenario_world) scenario_embed).1.2.

Definition scenario_iframe : HTMLIFrameElement :=
  {| contentWindow := Some player_window |}.

(** The shared state once the scenario's first instance is attached. *)
Definition scenario_shared : @Global browser :=
  (@connectedCallback browser (shared scenario_world) scenario_embed).1.1.

(** The scenario's parameters with the number written as a string. *)
Definition autoplay_as_string : Params := [("autoplay", JsString "1")].

(** ** Observations on effects, histories and states *)

Section Observations.
Context `{Collaborators}.

(** The [preconnect] calls among some effects: the key that guarded each
    call and the URL it was made with. *)
Definition preconnect_calls (out : list Effect) : list (string * string) :=
  omap (fun e => match e with
                 | Preconnect key url _ => Some (key, url)
                 | _ => None
                 end) out.


(** [srcWithParams] is the composed URL of the current [embedSrc] and
    [params]. *)
Definition in_sync (st : Embed) : Prop :=
  srcWithParams st = appendParamsToURL (embedSrc st) (params st).

(** The effects of instance [i] in a history. *)
Definition effects_of (i : nat) (h : list (nat * Effect)) : list Effect :=
  map snd (List.filter (fun x => Nat.eqb x.1 i) h).

(** No element of the list is followed by an equal one. *)
Fixpoint no_repeat (l : list string) : Prop :=
  match l with
  | [] => True
  | x :: l' => head l' <> Some x /\ no_repeat l'
  end.

(** The id [genIframeId] derives from the counter value [n]. *)
Definition iframe_id (n : nat) : string :=
  ("vime-iframe-" ++ NilEmpty.string_of_uint (Nat.to_uint n))%string.

(** In the history [h], every call of the observer's cleanup by instance
    [i] comes after a call of [onElementEntersViewport] by it. *)
Definition disposes_after_observing (i : nat) (h : list (nat * Effect))
  : Prop :=
  forall h1 h2,
    h = h1 ++ (i, DisposeObserver) :: h2 -> In (i, ObserveViewport) h1.

(** Every id on the page was derived from a counter value between [1] and
    [idCount], and no two instances hold the same id. *)
Definition ids_well_formed (w : World) : Prop :=
  (forall (i : nat) (st : Embed) (s : string),
     instance i w = Some st -> id st = Some s ->
     exists n, 1 <= n <= idCount (shared w) /\ s = iframe_id n) /\
  (forall (i j : nat) (sti stj : Embed) (s : string),
     i <> j -> instance i w = Some sti -> instance j w = Some stj ->
     id sti = Some s -> id stj <> Some s).

(** Cleanups are only called after a registration, and an instance that
    holds a cleanup function has registered. *)
Definition observers_accounted (w : World) : Prop :=
  forall i : nat,
    disposes_after_observing i (history w) /\
    (forall st : Embed,
       instance i w = Some st -> intersectionObserverCleanup st = true ->
       In (i, ObserveViewport) (history w)).

(** The payloads of the [embedSrcChange] notifications of instance [i], in
    the order they were emitted. *)
Definition notified_urls (i : nat) (h : list (nat * Effect)) : list string :=
  embedSrcChanges (effects_of i h).

(** No instance notified the same URL twice in a row, and the URL an
    instance notified last is its current [srcWithParams]. *)
Definition notifications_follow_changes (w : World) : Prop :=
  forall i : nat,
    no_repeat (notified_urls i (history w)) /\
    (forall st : Embed,
       instance i w = Some st ->
       notified_urls i (history w) = [] \/
       last (notified_urls i (history w)) = Some (srcWithParams st)).

(** Operation [a] changes the [params] object of instance [i] in place. *)
Definition mutates_params (i : nat) (a : nat * Op) : bool :=
  Nat.eqb a.1 i &&
  match a.2 with
  | MutateParams _ => true
  | _ => false
  end.

(** The values [srcWithParams] of instance [i] takes along a run, one for
    every step that changes it. *)
Fixpoint srcWithParams_changes (i : nat) (w : World)
    (ops : list (nat * Op)) : list string :=
  match ops with
  | [] => []
  | a :: ops' =>
      match srcWithParams <$> instance i w,
            srcWithParams <$> instance i (step w a) with
      | Some before, Some after =>
          if bool_decide (after = before) then [] else [after]
      | _, _ => []
      end ++ srcWithParams_changes i (step w a) ops'
  end.

End Observations.

(** * Inbound messages *)

Lemma strict_equal_true (a b : JsRef) : strict_equal a b = true <-> a = b.
Proof. unfold strict_equal. apply bool_decide_eq_true. Qed.

Lemma strict_equal_false (a b : JsRef) : strict_equal a b = false <-> a <> b.
Proof. unfold strict_equal. apply bool_decide_eq_false. Qed.

(** What passing the two checks means. *)
Lemma originMatches_spec (e : MessageEvent.t) (st : Embed) :
  originMatches e st = true <->
  MessageEvent.source_ref e = iframe_contentWindow st /\
  (origin st = None \/ origin st = Some (MessageEvent.origin e)).
Proof.
  unfold originMatches.
  rewrite andb_true_iff, orb_true_iff, strict_equal_true, bool_decide_eq_true.
  destruct (origin st) as [o|]; simpl; intuition congruence.
Qed.

(** A message without a source window passes the first check while the
    iframe has no browsing context: [null === null]. *)
Remark originMatches_null_source (e : MessageEvent.t) (st : Embed)
    (el : HTMLIFrameElement) :
  iframe st = Some el ->
  contentWindow el = None ->
  MessageEvent.source e = None ->
  origin st = None ->
  originMatches e st = true.
Proof.
  intros Hel Hw Hsrc Ho. apply originMatches_spec.
  unfold MessageEvent.source_ref, iframe_contentWindow.
  rewrite Hel, Hw, Hsrc. auto.
Qed.

(** An accepted message: the decoded payload, or the raw one when the
    decoder is absent or answers [null] or [undefined], is forwarded when it
    is truthy. *)
Lemma onWindowMessage_accepted (e : MessageEvent.t) (st : Embed) :
  originMatches e st = true ->
  onWindowMessage e st =
    let message :=
      coalesce (optional_call (decoder st) (MessageEvent.data e))
               (MessageEvent.data e) in
    if ToBoolean message then [EmbedMessage message] else [].
Proof. intros Hm. unfold onWindowMessage. now rewrite Hm. Qed.

Lemma onWindowMessage_rejected (e : MessageEvent.t) (st : Embed) :
  originMatches e st = false -> onWindowMessage e st = [].
Proof. intros Hm. unfold onWindowMessage. now rewrite Hm. Qed.

(** C1, as stated, fails: the decoder answers [undefined] for a message that
    passes both checks, and the raw payload is forwarded all the same. *)
Lemma decoder_absent_result_not_suppressed :
  originMatches (player_message (JsString "hello"))
                (with_decoder (Some decode_nothing) armed_embed) = true /\
  decode_nothing (JsString "hello") = JsUndefined /\
  onWindowMessage (player_message (JsString "hello"))
                  (with_decoder (Some decode_nothing) armed_embed)
  = [EmbedMessage (JsString "hello")].
Proof. repeat split. Qed.

(** C1, amended: for a message that passes the handle and origin checks and
    a configured decoder, a result that is falsy but neither [null] nor
    [undefined] (the empty string, [0], [false]) suppresses the
    notification; a [null] or [undefined] result makes the handler fall
    back to the raw payload, which is forwarded exactly when it is truthy. *)
Theorem decoder_rejection (e : MessageEvent.t) (st : Embed)
    (decode : JsVal -> JsVal) :
  originMatches e st = true ->
  decoder st = Some decode ->
  (nullish (decode (MessageEvent.data e)) = false ->
   ToBoolean (decode (MessageEvent.data e)) = false ->
   onWindowMessage e st = []) /\
  (nullish (decode (MessageEvent.data e)) = true ->
   onWindowMessage e st =
     if ToBoolean (MessageEvent.data e)
     then [EmbedMessage (MessageEvent.data e)] else []).
Proof.
  intros Hm Hd. rewrite (onWindowMessage_accepted _ _ Hm), Hd. simpl.
  unfold coalesce. split; intros Hn.
  - rewrite Hn. now intros ->.
  - now rewrite Hn.
Qed.

Lemma decoder_rejection_witness :
  onWindowMessage (player_message (JsString "hello"))
                  (with_decoder (Some decode_to_empty_string) armed_embed) = []
  /\ onWindowMessage (player_message (JsString ""))
                     (with_decoder (Some decode_nothing) armed_embed) = []
  /\ onWindowMessage (player_message (JsString "hello"))
                     (with_decoder (Some decode_nothing) armed_embed)
     = [EmbedMessage (JsString "hello")].
Proof.
  split; [|split].
  - apply (decoder_rejection (player_message (JsString "hello"))
             (with_decoder (Some decode_to_empty_string) armed_embed)
             decode_to_empty_string); reflexivity.
  - apply (decoder_rejection (player_message (JsString ""))
             (with_decoder (Some decode_nothing) armed_embed)
             decode_nothing); reflexivity.
  - apply (decoder_rejection (player_message (JsString "hello"))
             (with_decoder (Some decode_nothing) armed_embed)
             decode_nothing); reflexivity.
Defined.

(** C2: a message whose source is not the [contentWindow] of the instance's
    own iframe is never forwarded, whatever its origin and payload, whatever
    decoder is configured, and whether or not an expected origin is set. *)
Theorem foreign_source_never_forwarded (e : MessageEvent.t) (st : Embed)
    (expected : option string) (decode : option (JsVal -> JsVal)) :
  MessageEvent.source_ref e <> iframe_contentWindow st ->
  onWindowMessage e (with_decoder decode (with_origin expected st)) = [].
Proof.
  intros Hsrc. apply onWindowMessage_rejected.
  destruct (originMatches e _) eqn:Hm; [|reflexivity].
  apply originMatches_spec in Hm as [Heq _]. now destruct Hsrc.
Qed.

Lemma foreign_source_never_forwarded_witness :
  MessageEvent.source_ref (foreign_message (JsString "hello"))
    <> iframe_contentWindow armed_embed
  /\ onWindowMessage (foreign_message (JsString "hello"))
       (with_decoder None (with_origin None armed_embed)) = [].
Proof.
  split.
  - discriminate.
  - apply (foreign_source_never_forwarded (foreign_message (JsString "hello"))
             armed_embed None None).
    discriminate.
Defined.

(** C3: with the [origin] prop set to a string, a message whose origin is a
    different string is never forwarded, also when it comes from the
    instance's own iframe. *)
Theorem differing_origin_never_forwarded (e : MessageEvent.t) (st : Embed)
    (expected : string) :
  origin st = Some expected ->
  MessageEvent.origin e <> expected ->
  onWindowMessage e st = [].
Proof.
  intros Ho Hne. apply onWindowMessage_rejected.
  destruct (originMatches e st) eqn:Hm; [|reflexivity].
  apply originMatches_spec in Hm as [_ [Hnone|Hsome]]; congruence.
Qed.

Lemma differing_origin_never_forwarded_witness :
  MessageEvent.source_ref (evil_message (JsString "hello"))
    = iframe_contentWindow armed_embed
  /\ onWindowMessage (evil_message (JsString "hello"))
       (with_origin (Some "https://player.example") armed_embed) = [].
Proof.
  split.
  - reflexivity.
  - apply (differing_origin_never_forwarded (evil_message (JsString "hello"))
             (with_origin (Some "https://player.example") armed_embed)
             "https://player.example").
    + reflexivity.
    + discriminate.
Defined.

(** * Outbound messages *)

Section Outbound.
Context `{Collaborators}.


End Outbound.



(** * Rendering *)

Lemma render_src (st : Embed) :
  attr_src (render st) =
    if negb (lazy st) || hasEnteredViewport st
    then Some (srcWithParams st) else None.
Proof. reflexivity. Qed.

(** C10: a render gives the iframe the composed URL as [src] exactly when
    [lazy] is off or the viewport was entered, and no [src] otherwise; so an
    instance that was given a source with [lazy] off loses it again when
    [lazy] is switched on before the viewport is entered, while
    [hasEnteredViewport] stays as it is. *)
Theorem render_src_reversible (st : Embed) :
  (attr_src (render st) = Some (srcWithParams st) <->
   lazy st = false \/ hasEnteredViewport st = true) /\
  (attr_src (render st) = None <->
   lazy st = true /\ hasEnteredViewport st = false) /\
  (lazy st = false -> hasEnteredViewport st = false ->
   attr_src (render st) = Some (srcWithParams st) /\
   attr_src (render (with_lazy true st)) = None /\
   hasEnteredViewport (with_lazy true st) = false /\
   srcWithParams (with_lazy true st) = srcWithParams st).
Proof.
  rewrite !render_src. simpl.
  destruct (lazy st), (hasEnteredViewport st); simpl;
    intuition (discriminate || reflexivity).
Qed.

Lemma render_src_reversible_witness :
  attr_src (render (with_lazy false scenario_connected))
  = Some "https://player.example/embed/abc?autoplay=1"
  /\ attr_src (render (with_lazy true (with_lazy false scenario_connected)))
     = None
  /\ hasEnteredViewport (with_lazy true (with_lazy false scenario_connected))
     = false.
Proof.
  destruct (render_src_reversible (with_lazy false scenario_connected))
    as (_ & _ & Hflip).
  destruct (Hflip eq_refl eq_refl) as (Hon & Hoff & Hflag & _).
  exact (conj Hon (conj Hoff Hflag)).
Defined.

(** * The methods one by one *)

Section Methods.
Context `{Collaborators}.

Implicit Types (g : Global) (st : Embed) (k : string).

Lemma preconnect_and_record_effects (key url : string) g :
  (preconnect_and_record key url g).2
  = [Preconnect key url (preconnect url (document g)).1].
Proof.
  unfold preconnect_and_record. now destruct (preconnect url (document g)).
Qed.

Lemma preconnect_and_record_connected (key url : string) g :
  connected (preconnect_and_record key url g).1
  = if (preconnect url (document g)).1
    then {[key]} ∪ connected g else connected g.
Proof.
  unfold preconnect_and_record. now destruct (preconnect url (document g)).
Qed.

(** [srcWithParamsChange] leaves the instance as it is, and emits the
    composed URL as its last effect, whatever the viewport flag. *)
Lemma srcWithParamsChange_state g st : (srcWithParamsChange g st).1.2 = st.
Proof.
  unfold srcWithParamsChange.
  destruct (negb _ && _); [destruct (preconnect_and_record _ _ _)|];
    reflexivity.
Qed.

Lemma srcWithParamsChange_effects g st :
  (srcWithParamsChange g st).2
  = (if negb (hasEnteredViewport st)
        && negb (bool_decide (embedSrc st ∈ connected g))
     then (preconnect_and_record (embedSrc st) (srcWithParams st) g).2
     else [])
    ++ [EmbedSrcChange (srcWithParams st)].
Proof.
  unfold srcWithParamsChange.
  destruct (negb _ && _); [destruct (preconnect_and_record _ _ _)|];
    reflexivity.
Qed.

Lemma srcWithParamsChange_global g st :
  (srcWithParamsChange g st).1.1
  = if negb (hasEnteredViewport st)
       && negb (bool_decide (embedSrc st ∈ connected g))
    then (preconnect_and_record (embedSrc st) (srcWithParams st) g).1
    else g.
Proof.
  unfold srcWithParamsChange.
  destruct (negb _ && _); [destruct (preconnect_and_record _ _ _)|];
    reflexivity.
Qed.

(** An assignment to [srcWithParams] changes no other member. *)
Lemma assign_srcWithParams_state (v : string) g st :
  (assign_srcWithParams v g st).1.2 = st /\ v = srcWithParams st
  \/ (assign_srcWithParams v g st).1.2 = with_srcWithParams v st
     /\ v <> srcWithParams st.
Proof.
  unfold assign_srcWithParams. case_bool_decide.
  - now left.
  - right. now rewrite srcWithParamsChange_state.
Qed.

Lemma srcChange_srcWithParams g st :
  srcWithParams (srcChange g st).1.2
  = appendParamsToURL (embedSrc st) (params st).
Proof.
  unfold srcChange.
  destruct (assign_srcWithParams_state
              (appendParamsToURL (embedSrc st) (params st)) g st)
    as [[-> Heq]|[-> _]]; [now symmetry | reflexivity].
Qed.

(** The members other than [srcWithParams] after [srcChange]. *)
Lemma srcChange_frame g st :
  let st' := (srcChange g st).1.2 in
  hasEnteredViewport st' = hasEnteredViewport st /\
  embedSrc st' = embedSrc st /\ params st' = params st /\
  lazy st' = lazy st /\ iframe st' = iframe st /\
  preconnections st' = preconnections st.
Proof.
  unfold srcChange.
  destruct (assign_srcWithParams_state
              (appendParamsToURL (embedSrc st) (params st)) g st)
    as [[-> _]|[-> _]]; repeat split.
Qed.

Lemma preconnectionsChange_state g st : (preconnectionsChange g st).1.2 = st.
Proof.
  unfold preconnectionsChange.
  destruct (hasEnteredViewport st); [reflexivity|].
  now destruct (preconnect_each _ _).
Qed.

(** What each operation does to [hasEnteredViewport]: only the viewport
    callback writes it, and it writes [true]. *)
Lemma dispatch_hasEnteredViewport (op : Op) g st :
  hasEnteredViewport (dispatch op g st).1.2
  = match op with
    | EntersViewport => true
    | _ => hasEnteredViewport st
    end.
Proof.
  destruct op; simpl; try reflexivity.
  - unfold connectedCallback.
    pose proof (srcChange_frame g (with_intersectionObserverCleanup true st))
      as (Hf & _).
    destruct (srcChange _ _) as [[g' st'] out]. exact Hf.
  - case_bool_decide; [reflexivity|].
    unfold run_watcher. destruct (created _); [|reflexivity].
    now destruct (srcChange_frame g (with_embedSrc v st)) as (-> & _).
  - unfold run_watcher. destruct (created _); [|reflexivity].
    now destruct (srcChange_frame g (with_params v st)) as (-> & _).
  - unfold run_watcher. destruct (created _); [|reflexivity].
    now rewrite preconnectionsChange_state.
  - now destruct (postMessage _ _ _).
Qed.

Lemma srcChange_effects g st :
  (srcChange g st).2
  = if bool_decide (appendParamsToURL (embedSrc st) (params st)
                    = srcWithParams st)
    then []
    else
      (if negb (hasEnteredViewport st)
          && negb (bool_decide (embedSrc st ∈ connected g))
       then (preconnect_and_record (embedSrc st)
               (appendParamsToURL (embedSrc st) (params st)) g).2
       else [])
      ++ [EmbedSrcChange (appendParamsToURL (embedSrc st) (params st))].
Proof.
  unfold srcChange, assign_srcWithParams. case_bool_decide; [reflexivity|].
  now rewrite srcWithParamsChange_effects.
Qed.

Lemma srcChange_global g st :
  (srcChange g st).1.1
  = if bool_decide (appendParamsToURL (embedSrc st) (params st)
                    = srcWithParams st)
    then g
    else
      if negb (hasEnteredViewport st)
         && negb (bool_decide (embedSrc st ∈ connected g))
      then (preconnect_and_record (embedSrc st)
              (appendParamsToURL (embedSrc st) (params st)) g).1
      else g.
Proof.
  unfold srcChange, assign_srcWithParams. case_bool_decide; [reflexivity|].
  now rewrite srcWithParamsChange_global.
Qed.

Lemma connectedCallback_effects g st :
  (connectedCallback g st).2
  = ObserveViewport
    :: (srcChange g (with_intersectionObserverCleanup true st)).2.
Proof.
  unfold connectedCallback. now destruct (srcChange _ _) as [[g' st'] out].
Qed.

Lemma connectedCallback_global g st :
  (connectedCallback g st).1.1
  = (srcChange g (with_intersectionObserverCleanup true st)).1.1.
Proof.
  unfold connectedCallback. now destruct (srcChange _ _) as [[g' st'] out].
Qed.

Lemma connectedCallback_state g st :
  (connectedCallback g st).1.2
  = (srcChange g (with_intersectionObserverCleanup true st)).1.2.
Proof.
  unfold connectedCallback. now destruct (srcChange _ _) as [[g' st'] out].
Qed.

Lemma preconnectionsChange_effects g st :
  (preconnectionsChange g st).2
  = if hasEnteredViewport st then []
    else (preconnect_each
            (filter (fun connection => connection ∉ connected g)
                    (preconnections st)) g).2.
Proof.
  unfold preconnectionsChange.
  destruct (hasEnteredViewport st); [reflexivity|].
  now destruct (preconnect_each _ _).
Qed.

Lemma preconnectionsChange_global g st :
  (preconnectionsChange g st).1.1
  = if hasEnteredViewport st then g
    else (preconnect_each
            (filter (fun connection => connection ∉ connected g)
                    (preconnections st)) g).1.
Proof.
  unfold preconnectionsChange.
  destruct (hasEnteredViewport st); [reflexivity|].
  now destruct (preconnect_each _ _).
Qed.

(** After viewport entry no operation calls [preconnect]. *)
Lemma dispatch_quiet (op : Op) g st :
  hasEnteredViewport st = true ->
  Forall (fun e => is_preconnect e = false) (dispatch op g st).2.
Proof.
  intros Hf. destruct op; simpl; try (repeat constructor; fail).
  - rewrite connectedCallback_effects, srcChange_effects. simpl.
    rewrite Hf. simpl. case_bool_decide; repeat constructor.
  - unfold disconnectedCallback.
    destruct (intersectionObserverCleanup st); repeat constructor.
  - case_bool_decide; [constructor|].
    unfold run_watcher. destruct (created _); [|constructor].
    rewrite srcChange_effects. simpl. rewrite Hf. simpl.
    case_bool_decide; repeat constructor.
  - unfold run_watcher. destruct (created _); [|constructor].
    rewrite srcChange_effects. simpl. rewrite Hf. simpl.
    case_bool_decide; repeat constructor.
  - unfold run_watcher. destruct (created _); [|constructor].
    rewrite preconnectionsChange_effects. simpl. rewrite Hf. constructor.
  - unfold onWindowMessage.
    destruct (negb _); [constructor|].
    destruct (ToBoolean _); repeat constructor.
  - destruct (postMessage message target st) as [out|] eqn:Hp; simpl;
      [|constructor].
    unfold postMessage in Hp.
    destruct (iframe st) as [[[w0|]]|]; try (injection Hp as <-; constructor).
    destruct (JSON_stringify message); [|discriminate].
    destruct (accepts_targetOrigin _); [|discriminate].
    injection Hp as <-. repeat constructor.
Qed.

End Methods.

(** * Runs of the page *)

Section Runs.
Context `{Collaborators}.

Implicit Types (g : Global) (st : Embed) (w : World) (a : nat * Op)
  (ops : list (nat * Op)) (i : nat).

Lemma step_absent w a : instance a.1 w = None -> step w a = w.
Proof. unfold step, instance. now intros ->. Qed.

Lemma step_present w a st :
  instance a.1 w = Some st ->
  step w a =
    {| shared := (dispatch a.2 (shared w) st).1.1;
       instances := <[a.1 := (dispatch a.2 (shared w) st).1.2]> (instances w);
       history := history w ++ map (pair a.1) (dispatch a.2 (shared w) st).2 |}.
Proof.
  unfold step, instance. intros ->.
  now destruct (dispatch a.2 (shared w) st) as [[g' st'] out].
Qed.

(** An operation on one instance leaves the other instances alone. *)
Lemma step_instance_ne w a i : a.1 <> i -> instance i (step w a) = instance i w.
Proof.
  intros Hne. destruct (instance a.1 w) as [st|] eqn:Hi.
  - rewrite (step_present _ _ _ Hi). unfold instance. simpl.
    now apply list_lookup_insert_ne.
  - now rewrite (step_absent _ _ Hi).
Qed.

Lemma step_instance_eq w a st :
  instance a.1 w = Some st ->
  instance a.1 (step w a) = Some (dispatch a.2 (shared w) st).1.2.
Proof.
  intros Hi. rewrite (step_present _ _ _ Hi). unfold instance. simpl.
  apply list_lookup_insert_eq. now apply lookup_lt_Some in Hi.
Qed.

(** The history only grows, by the effects of the operation. *)
Lemma step_history w a :
  history (step w a)
  = history w ++
    match instance a.1 w with
    | Some st => map (pair a.1) (dispatch a.2 (shared w) st).2
    | None => []
    end.
Proof.
  destruct (instance a.1 w) as [st|] eqn:Hi.
  - now rewrite (step_present _ _ _ Hi).
  - rewrite (step_absent _ _ Hi). now rewrite app_nil_r.
Qed.

Lemma run_cons w a ops : run w (a :: ops) = run (step w a) ops.
Proof. reflexivity. Qed.

Lemma run_app w ops ops' : run w (ops ++ ops') = run (run w ops) ops'.
Proof. apply foldl_app. Qed.

(** The viewport flag of instance [i] after one operation. *)
Lemma step_hasEnteredViewport w a i st :
  instance i w = Some st ->
  exists st',
    instance i (step w a) = Some st' /\
    hasEnteredViewport st' = hasEnteredViewport st || enters i a.
Proof.
  intros Hi. unfold enters. destruct (Nat.eqb_spec a.1 i) as [<-|Hne].
  - exists (dispatch a.2 (shared w) st).1.2.
    split; [exact (step_instance_eq w a st Hi)|].
    rewrite dispatch_hasEnteredViewport. simpl.
    destruct a.2; simpl; now rewrite ?orb_false_r, ?orb_true_r.
  - exists st. split; [now rewrite step_instance_ne|].
    now rewrite orb_false_r.
Qed.

Lemma step_instance_None w a i :
  instance i w = None -> instance i (step w a) = None.
Proof.
  intros Hi. destruct (decide (a.1 = i)) as [<-|Hne].
  - now rewrite (step_absent _ _ Hi).
  - now rewrite step_instance_ne.
Qed.

(** Once [true], the flag is [true] after every run. *)
Lemma run_hasEnteredViewport_true w ops i st :
  instance i w = Some st ->
  hasEnteredViewport st = true ->
  exists st',
    instance i (run w ops) = Some st' /\ hasEnteredViewport st' = true.
Proof.
  revert w st. induction ops as [|a ops IH]; intros w st Hi Hf.
  - now exists st.
  - destruct (step_hasEnteredViewport w a i st Hi) as (st1 & Hi1 & Hf1).
    rewrite Hf in Hf1. simpl in Hf1. rewrite run_cons. now apply (IH _ st1).
Qed.

(** Without a viewport callback for instance [i], its flag keeps its
    value. *)
Lemma run_hasEnteredViewport_kept w ops i st :
  instance i w = Some st ->
  Forall (fun a => enters i a = false) ops ->
  exists st',
    instance i (run w ops) = Some st' /\
    hasEnteredViewport st' = hasEnteredViewport st.
Proof.
  revert w st. induction ops as [|a ops IH]; intros w st Hi Hno.
  - now exists st.
  - apply Forall_cons in Hno as [Ha Hno].
    destruct (step_hasEnteredViewport w a i st Hi) as (st1 & Hi1 & Hf1).
    rewrite Ha, orb_false_r in Hf1. rewrite run_cons.
    destruct (IH _ st1 Hi1 Hno) as (st' & Hi' & Hf').
    exists st'. split; [assumption | congruence].
Qed.

Lemma flag_history_head w ops i :
  head (flag_history i w ops) = Some (hasEnteredViewport <$> instance i w).
Proof. now destruct ops. Qed.

Lemma flag_history_true w ops i st :
  instance i w = Some st ->
  hasEnteredViewport st = true ->
  rises (flag_history i w ops) = 0.
Proof.
  revert w st. induction ops as [|a ops IH]; intros w st Hi Hf;
    cbn [flag_history rises]; rewrite Hi; cbn [fmap option_fmap option_map];
    rewrite Hf; cbn [is_rise Nat.add].
  - reflexivity.
  - destruct (step_hasEnteredViewport w a i st Hi) as (st1 & Hi1 & Hf1).
    rewrite Hf in Hf1. now apply (IH _ st1).
Qed.

Lemma flag_history_rises w ops i : rises (flag_history i w ops) <= 1.
Proof.
  revert w. induction ops as [|a ops IH]; intros w.
  - simpl. destruct (hasEnteredViewport <$> instance i w) as [[|]|]; simpl; lia.
  - change (flag_history i w (a :: ops))
      with ((hasEnteredViewport <$> instance i w)
              :: flag_history i (step w a) ops).
    cbn [rises]. rewrite flag_history_head.
    destruct (is_rise _ _) eqn:Hr; [|specialize (IH (step w a)); lia].
    destruct (instance i (step w a)) as [st1|] eqn:Hi1; simpl in Hr;
      [|destruct (hasEnteredViewport <$> instance i w) as [[|]|]; discriminate].
    destruct (hasEnteredViewport st1) eqn:Hf1;
      [|destruct (hasEnteredViewport <$> instance i w) as [[|]|]; discriminate].
    rewrite (flag_history_true _ ops i st1 Hi1 Hf1). lia.
Qed.

End Runs.

(** * Preconnect hints *)

Section Hints.
Context `{Collaborators}.

Implicit Types (g : Global) (st : Embed) (w : World) (k : string).

Lemma count_hints_app k (out out' : list Effect) :
  count_hints k (out ++ out') = count_hints k out + count_hints k out'.
Proof. unfold count_hints. now rewrite List.filter_app, length_app. Qed.

Lemma hints_issued_app k (h : list (nat * Effect)) (i : nat)
    (out : list Effect) :
  hints_issued k (h ++ map (pair i) out) = hints_issued k h + count_hints k out.
Proof.
  unfold hints_issued, count_hints. rewrite List.filter_app, length_app.
  f_equal. induction out as [|e out IH]; [reflexivity|].
  simpl. destruct (is_hint_for k e); simpl; congruence.
Qed.

Lemma recorded_le_1 k g : recorded k g <= 1.
Proof. unfold recorded. case_bool_decide; lia. Qed.

(** A guarded [preconnect] call: a hint issued under [k] is paid for by
    [k] entering [connected]. *)
Lemma preconnect_and_record_balanced (key url : string) g k :
  key ∉ connected g ->
  count_hints k (preconnect_and_record key url g).2 + recorded k g
  <= recorded k (preconnect_and_record key url g).1.
Proof.
  intros Hkey. unfold recorded.
  rewrite preconnect_and_record_effects, preconnect_and_record_connected.
  unfold count_hints. simpl.
  destruct (preconnect url (document g)).1; simpl;
    repeat case_bool_decide; simpl; try lia; set_solver.
Qed.

Lemma preconnect_each_cons (c : string) (cs : list string) g :
  preconnect_each (c :: cs) g
  = ((preconnect_each cs (preconnect_and_record c c g).1).1,
     (preconnect_and_record c c g).2
     ++ (preconnect_each cs (preconnect_and_record c c g).1).2).
Proof.
  simpl. destruct (preconnect_and_record c c g) as [g1 out1]. simpl.
  now destruct (preconnect_each cs g1) as [g2 out2].
Qed.

(** The [forEach] loop over connections that are pairwise different and
    none of which is in [connected] yet. *)
Lemma preconnect_each_balanced (cs : list string) g k :
  NoDup cs ->
  Forall (fun c => c ∉ connected g) cs ->
  count_hints k (preconnect_each cs g).2 + recorded k g
  <= recorded k (preconnect_each cs g).1.
Proof.
  revert g. induction cs as [|c cs IH]; intros g Hnd Hnew.
  - simpl. unfold count_hints. simpl. lia.
  - apply NoDup_cons in Hnd as [Hc Hnd]. apply Forall_cons in Hnew as [Hcg Hnew].
    rewrite preconnect_each_cons. cbn [fst snd]. rewrite count_hints_app.
    pose proof (preconnect_and_record_balanced c c g k Hcg) as H1.
    assert (Forall (fun c' => c' ∉ connected (preconnect_and_record c c g).1)
              cs) as Hnew1.
    { rewrite preconnect_and_record_connected.
      apply Forall_forall. intros c' Hin.
      rewrite Forall_forall in Hnew. specialize (Hnew c' Hin).
      destruct (preconnect c (document g)).1; [|assumption].
      intros [->%elem_of_singleton|?]%elem_of_union; contradiction. }
    specialize (IH (preconnect_and_record c c g).1 Hnd Hnew1). lia.
Qed.

(** The same for every operation, as long as a list assigned to
    [preconnections] has no entry twice. *)
Lemma dispatch_balanced (op : Op) g st k :
  (forall l, op = SetPreconnections l -> NoDup l) ->
  count_hints k (dispatch op g st).2 + recorded k g
  <= recorded k (dispatch op g st).1.1.
Proof.
  assert (forall st0,
            count_hints k (srcChange g st0).2 + recorded k g
            <= recorded k (srcChange g st0).1.1) as Hsrc.
  { intros st0. rewrite srcChange_effects, srcChange_global.
    case_bool_decide; [unfold count_hints; simpl; lia|].
    rewrite count_hints_app.
    replace (count_hints k [EmbedSrcChange _]) with 0 by reflexivity.
    destruct (negb (hasEnteredViewport st0)) eqn:Hv; simpl;
      [|unfold count_hints; simpl; lia].
    case_bool_decide as Hin; simpl; [unfold count_hints; simpl; lia|].
    pose proof (preconnect_and_record_balanced (embedSrc st0)
                  (appendParamsToURL (embedSrc st0) (params st0)) g k Hin).
    lia. }
  intros Hnd.
  destruct op; simpl; try (unfold count_hints, recorded; simpl; lia).
  - rewrite connectedCallback_effects, connectedCallback_global.
    apply (Hsrc (with_intersectionObserverCleanup true st)).
  - unfold disconnectedCallback.
    destruct (intersectionObserverCleanup st); unfold count_hints; simpl; lia.
  - case_bool_decide; [unfold count_hints; simpl; lia|].
    unfold run_watcher. destruct (created _); [apply Hsrc|].
    unfold count_hints; simpl; lia.
  - unfold run_watcher. destruct (created _); [apply Hsrc|].
    unfold count_hints; simpl; lia.
  - unfold run_watcher.
    destruct (created _); [|unfold count_hints; simpl; lia].
    rewrite preconnectionsChange_effects, preconnectionsChange_global. simpl.
    destruct (hasEnteredViewport st); [unfold count_hints; simpl; lia|].
    apply preconnect_each_balanced.
    + apply NoDup_filter. now apply Hnd.
    + apply Forall_forall. intros c Hin.
      now apply list_elem_of_filter in Hin as [Hc _].
  - unfold onWindowMessage. destruct (negb _); [unfold count_hints; simpl; lia|].
    destruct (ToBoolean _); unfold count_hints; simpl; lia.
  - destruct (postMessage message target st) as [out|] eqn:Hp; simpl;
      [|unfold count_hints; simpl; lia].
    unfold postMessage in Hp.
    destruct (iframe st) as [[[w0|]]|];
      try (injection Hp as <-; unfold count_hints; simpl; lia).
    destruct (JSON_stringify message); [|discriminate].
    destruct (accepts_targetOrigin _); [|discriminate].
    injection Hp as <-. unfold count_hints; simpl; lia.
Qed.

Lemma step_balanced w (a : nat * Op) k :
  (forall l, a.2 = SetPreconnections l -> NoDup l) ->
  hints_issued k (history w) <= recorded k (shared w) ->
  hints_issued k (history (step w a)) <= recorded k (shared (step w a)).
Proof.
  intros Hnd Hinv. destruct (instance a.1 w) as [st|] eqn:Hi.
  - rewrite (step_present _ _ _ Hi). simpl. rewrite hints_issued_app.
    pose proof (dispatch_balanced a.2 (shared w) st k Hnd). lia.
  - now rewrite (step_absent _ _ Hi).
Qed.

(** What the registry does achieve: on a page that starts empty, and as
    long as no list assigned to [preconnections] has an entry twice, at
    most one hint is issued under each key, over all instances. *)
Lemma hints_at_most_once_without_duplicates (doc : Document)
    (sts : list Embed) (ops : list (nat * Op)) k :
  Forall (fun a => forall l, a.2 = SetPreconnections l -> NoDup l) ops ->
  hints_issued k (history (run (World_new doc sts) ops)) <= 1.
Proof.
  intros Hnd.
  enough (forall w,
             hints_issued k (history w) <= recorded k (shared w) ->
             hints_issued k (history (run w ops))
             <= recorded k (shared (run w ops))) as Hrun.
  { specialize (Hrun (World_new doc sts)).
    pose proof (recorded_le_1 k (shared (run (World_new doc sts) ops))).
    assert (hints_issued k (history (World_new doc sts)) = 0) as Hnone
      by reflexivity.
    lia. }
  induction ops as [|a ops IH]; intros w Hinv; [exact Hinv|].
  apply Forall_cons in Hnd as [Ha Hnd]. rewrite run_cons.
  apply (IH Hnd). now apply step_balanced.
Qed.

(** C7: once [hasEnteredViewport] of an instance is [true], nothing that
    happens on the page afterwards makes that instance call [preconnect]
    again: neither an assignment to [embedSrc] or [params] (a change of the
    composed URL) nor an assignment to [preconnections]. *)
Theorem no_hints_after_viewport_entry w (ops : list (nat * Op)) (i : nat) st :
  instance i w = Some st ->
  hasEnteredViewport st = true ->
  exists new,
    history (run w ops) = history w ++ new /\
    Forall (fun x => x.1 = i -> is_preconnect x.2 = false) new.
Proof.
  revert w st. induction ops as [|a ops IH]; intros w st Hi Hf.
  - exists []. split; [now rewrite app_nil_r | constructor].
  - destruct (step_hasEnteredViewport w a i st Hi) as (st1 & Hi1 & Hf1).
    rewrite Hf in Hf1. simpl in Hf1.
    destruct (IH (step w a) st1 Hi1 Hf1) as (new & Hnew & Hq).
    rewrite run_cons, Hnew, step_history, <- app_assoc.
    eexists. split; [reflexivity|].
    apply Forall_app. split; [|assumption].
    destruct (instance a.1 w) as [sta|] eqn:Hia; [|constructor].
    apply Forall_forall. intros x Hin Hx.
    apply list_elem_of_In, in_map_iff in Hin as (e & <- & Hin).
    simpl in Hx. subst i. rewrite Hia in Hi. injection Hi as ->.
    pose proof (dispatch_quiet a.2 (shared w) st Hf) as Hd.
    rewrite Forall_forall in Hd. apply Hd. now apply list_elem_of_In.
Qed.

End Hints.

Lemma no_hints_after_viewport_entry_witness :
  exists new,
    history (run (step scenario_world (0, EntersViewport))
               [(0, Connect);
                (0, SetPreconnections ["https://cdn.a"; "https://cdn.b"]);
                (0, SetEmbedSrc "https://player.example/embed/xyz")])
    = history (step scenario_world (0, EntersViewport)) ++ new /\
    Forall (fun x => x.1 = 0 -> is_preconnect x.2 = false) new.
Proof.
  apply (@no_hints_after_viewport_entry browser
           (step scenario_world (0, EntersViewport))
           [(0, Connect);
            (0, SetPreconnections ["https://cdn.a"; "https://cdn.b"]);
            (0, SetEmbedSrc "https://player.example/embed/xyz")]
           0 (viewportCallback scenario_embed)); reflexivity.
Defined.

(** C4: two equal entries in one [preconnections] list are both hinted.
    [filter] tests [connected] for every entry before [forEach] issues the
    first hint, so the second entry is not seen as already connected. *)
Theorem duplicate_preconnections_hinted_twice :
  hints_issued "https://cdn.a"
    (history (run scenario_world
                [(0, Connect);
                 (0, SetPreconnections ["https://cdn.a"; "https://cdn.a"])]))
  = 2.
Proof. vm_compute. reflexivity. Qed.

(** * The viewport flag and the source of the iframe *)

Section Viewport.
Context `{Collaborators}.

Implicit Types (g : Global) (st : Embed) (w : World).

(** C9: [hasEnteredViewport] is [false] in a new instance; once [true] it
    is [true] after every further run of the page; and along any run it goes
    from [false] to [true] at most once. *)
Theorem hasEnteredViewport_one_way :
  hasEnteredViewport Embed_new = false /\
  (forall w (ops : list (nat * Op)) (i : nat) st,
     instance i w = Some st ->
     hasEnteredViewport st = true ->
     hasEnteredViewport <$> instance i (run w ops) = Some true) /\
  (forall w (ops : list (nat * Op)) (i : nat),
     rises (flag_history i w ops) <= 1).
Proof.
  split; [reflexivity|]. split.
  - intros w ops i st Hi Hf.
    destruct (run_hasEnteredViewport_true w ops i st Hi Hf) as (st' & -> & Hf').
    simpl. now rewrite Hf'.
  - intros w ops i. apply flag_history_rises.
Qed.

(** C5: as long as the viewport callback of an instance has not run, its
    flag is [false] and a render with [lazy] on gives the iframe no [src];
    with [lazy] off every render gives it the composed URL, from
    [connectedCallback] on; and the render after the viewport callback gives
    it the composed URL. *)
Theorem lazy_defers_source w (ops : list (nat * Op)) (i : nat) (st0 : Embed) :
  instance i w = Some st0 ->
  hasEnteredViewport st0 = false ->
  Forall (fun a => enters i a = false) ops ->
  exists st,
    instance i (run w ops) = Some st /\
    hasEnteredViewport st = false /\
    (lazy st = true -> attr_src (render st) = None) /\
    (lazy st = false ->
     attr_src (render st) = Some (srcWithParams st) /\
     forall g,
       attr_src (render (connectedCallback g st).1.2)
       = Some (appendParamsToURL (embedSrc st) (params st))) /\
    attr_src (render (viewportCallback st)) = Some (srcWithParams st).
Proof.
  intros Hi Hf Hno.
  destruct (run_hasEnteredViewport_kept w ops i st0 Hi Hno) as (st & Hst & Hkept).
  exists st. rewrite Hf in Hkept. split; [assumption|]. split; [assumption|].
  rewrite !render_src. split; [|split].
  - intros ->. now rewrite Hkept.
  - intros Hlazy. split; [now rewrite Hlazy|].
    intros g. rewrite render_src, connectedCallback_state.
    destruct (srcChange_frame g (with_intersectionObserverCleanup true st))
      as (_ & _ & _ & -> & _).
    rewrite srcChange_srcWithParams. simpl. now rewrite Hlazy.
  - simpl. now rewrite orb_true_r.
Qed.

(** What the watchers do on an instance that exists: the assignment of
    another string to [embedSrc], or of another object to [params],
    recomputes the composed URL from the new configuration whatever the
    value of [hasEnteredViewport], and emits [embedSrcChange] with it, once,
    when it differs from the composed URL the instance had; when the
    composed URL comes out the same, nothing is emitted. *)
Lemma source_change_notified g st :
  created st = true ->
  (forall v : string,
     v <> embedSrc st ->
     recomposed v (params st) st (dispatch (SetEmbedSrc v) g st)) /\
  (forall p : Params,
     recomposed (embedSrc st) p st (dispatch (SetParams p) g st)).
Proof.
  intros Hc.
  assert (forall st1,
            srcWithParams st1 = srcWithParams st ->
            hasEnteredViewport st1 = hasEnteredViewport st ->
            recomposed (embedSrc st1) (params st1) st (srcChange g st1))
    as Hsrc.
  { intros st1 Hs Hf. unfold recomposed.
    destruct (srcChange_frame g st1) as (-> & -> & -> & _).
    rewrite srcChange_srcWithParams, srcChange_effects, Hs.
    repeat split; [assumption|].
    case_bool_decide; [reflexivity|].
    destruct (negb _ && _); [rewrite preconnect_and_record_effects|];
      reflexivity. }
  split.
  - intros v Hv. simpl. case_bool_decide; [contradiction|].
    unfold run_watcher, created in *. simpl. rewrite Hc.
    now apply (Hsrc (with_embedSrc v st)).
  - intros p. simpl. unfold run_watcher, created in *. simpl. rewrite Hc.
    now apply (Hsrc (with_params p st)).
Qed.

End Viewport.

Lemma hasEnteredViewport_one_way_witness :
  hasEnteredViewport <$>
    instance 0 (run (step scenario_world (0, EntersViewport))
                  [(0, Connect); (0, SetLazy true); (0, Disconnect);
                   (0, Connect); (1, EntersViewport)])
  = Some true
  /\ rises (flag_history 0 scenario_world
              [(0, Connect); (0, EntersViewport); (0, SetLazy false);
               (0, EntersViewport); (0, Disconnect)]) <= 1.
Proof.
  destruct (@hasEnteredViewport_one_way browser) as (_ & Hstays & Honce).
  split.
  - apply (Hstays (step scenario_world (0, EntersViewport)) _ 0
             (viewportCallback scenario_embed)); reflexivity.
  - apply Honce.
Defined.

Lemma lazy_defers_source_witness :
  exists st,
    instance 0 (run scenario_world
                  [(0, Connect); (0, WillLoad); (0, Render scenario_iframe);
                   (1, EntersViewport)]) = Some st
    /\ hasEnteredViewport st = false
    /\ attr_src (render st) = None.
Proof.
  destruct (@lazy_defers_source browser scenario_world
              [(0, Connect); (0, WillLoad); (0, Render scenario_iframe);
               (1, EntersViewport)] 0 scenario_embed)
    as (st & Hst & Hflag & Hlazy & _).
  - reflexivity.
  - reflexivity.
  - repeat constructor.
  - exists st. split; [exact Hst|]. split; [exact Hflag|].
    apply Hlazy. vm_compute in Hst. injection Hst as <-. reflexivity.
Defined.

(** C6: [params] is assigned the object [{autoplay: '1'}] in place of
    [{autoplay: 1}] on an attached instance.  The composed URL is recomputed
    and comes out the same, so [srcWithParams] does not change, its watcher
    does not run, and no [embedSrcChange] is emitted, although the event is
    documented as emitted when the [embedSrc] or [params] props change. *)
Lemma unchanged_composed_url_not_notified :
  autoplay_as_string <> params scenario_connected
  /\ params (dispatch (SetParams autoplay_as_string) scenario_shared
               scenario_connected).1.2 = autoplay_as_string
  /\ srcWithParams (dispatch (SetParams autoplay_as_string) scenario_shared
                      scenario_connected).1.2
     = "https://player.example/embed/abc?autoplay=1"
  /\ (dispatch (SetParams autoplay_as_string) scenario_shared
        scenario_connected).2 = [].
Proof. repeat split. discriminate. Qed.

Lemma source_change_notified_witness :
  "https://player.example/embed/xyz" <> embedSrc scenario_connected
  /\ embedSrcChanges
       (dispatch (SetEmbedSrc "https://player.example/embed/xyz")
          scenario_shared scenario_connected).2
     = ["https://player.example/embed/xyz?autoplay=1"]
  /\ embedSrcChanges
       (dispatch (SetParams autoplay_as_string) scenario_shared
          (viewportCallback scenario_connected)).2
     = [].
Proof.
  destruct (@source_change_notified browser scenario_shared scenario_connected
              eq_refl) as (Hsrc & _).
  destruct (@source_change_notified browser scenario_shared
              (viewportCallback scenario_connected) eq_refl) as (_ & Hparams).
  split; [discriminate|]. split.
  - destruct (Hsrc "https://player.example/embed/xyz") as (_ & _ & _ & _ & Hn);
      [discriminate|exact Hn].
  - destruct (Hparams autoplay_as_string) as (_ & _ & _ & _ & Hn). exact Hn.
Defined.

(** * Further properties of the component *)

(** ** What [onWindowMessage] forwards *)

(** X1: [onWindowMessage] forwards [m] exactly when the source of the
    message is the iframe's [contentWindow], the [origin] prop is unset or
    equal to the origin of the message, [m] is the decoder's answer (the raw
    payload when there is no decoder or it answers [null] or [undefined]),
    and [m] is truthy. *)
Theorem message_forwarded_iff (e : MessageEvent.t) (st : Embed) (m : JsVal) :
  onWindowMessage e st = [EmbedMessage m] <->
  MessageEvent.source_ref e = iframe_contentWindow st /\
  (origin st = None \/ origin st = Some (MessageEvent.origin e)) /\
  m = coalesce (optional_call (decoder st) (MessageEvent.data e))
               (MessageEvent.data e) /\
  ToBoolean m = true.
Proof.
  split.
  - intros Hout. destruct (originMatches e st) eqn:Hm.
    + rewrite (onWindowMessage_accepted _ _ Hm) in Hout. simpl in Hout.
      apply originMatches_spec in Hm as [Hsrc Ho].
      destruct (ToBoolean (coalesce _ _)) eqn:Ht; [|discriminate].
      injection Hout as <-. auto.
    + now rewrite (onWindowMessage_rejected _ _ Hm) in Hout.
  - intros (Hsrc & Ho & -> & Ht).
    rewrite onWindowMessage_accepted by (apply originMatches_spec; auto).
    simpl. now rewrite Ht.
Qed.

(** X2: one message gives at most one notification, it is an
    [embedMessage], and its payload is never falsy. *)
Theorem onWindowMessage_at_most_one (e : MessageEvent.t) (st : Embed) :
  onWindowMessage e st = [] \/
  exists m, onWindowMessage e st = [EmbedMessage m] /\ ToBoolean m = true.
Proof.
  unfold onWindowMessage. destruct (negb _); [now left|].
  destruct (ToBoolean _) eqn:Ht; [right|now left]. eauto.
Qed.

(** X3: for a message that passes the checks, a truthy answer of the
    decoder is forwarded in place of the raw payload. *)
Theorem decoded_payload_forwarded (e : MessageEvent.t) (st : Embed)
    (decode : JsVal -> JsVal) :
  originMatches e st = true ->
  decoder st = Some decode ->
  ToBoolean (decode (MessageEvent.data e)) = true ->
  onWindowMessage e st = [EmbedMessage (decode (MessageEvent.data e))].
Proof.
  intros Hm Hd Ht. rewrite (onWindowMessage_accepted _ _ Hm), Hd. simpl.
  unfold coalesce.
  destruct (decode (MessageEvent.data e)); try discriminate; simpl in *;
    now rewrite ?Ht.
Qed.

Lemma decoded_payload_forwarded_witness :
  onWindowMessage (player_message (JsString "hello"))
    (with_decoder (Some (fun raw => JsObject [("event", raw)])) armed_embed)
  = [EmbedMessage (JsObject [("event", JsString "hello")])].
Proof.
  apply (decoded_payload_forwarded (player_message (JsString "hello"))
           (with_decoder (Some (fun raw => JsObject [("event", raw)]))
              armed_embed)
           (fun raw => JsObject [("event", raw)])); reflexivity.
Defined.

(** X4: a message is forwarded by at most one of two instances whose
    iframes have different [contentWindow]s, whatever their [origin] props
    and decoders: an instance never forwards the messages of another
    instance's iframe. *)
Theorem message_reaches_one_instance (e : MessageEvent.t) (st1 st2 : Embed) :
  iframe_contentWindow st1 <> iframe_contentWindow st2 ->
  onWindowMessage e st1 = [] \/ onWindowMessage e st2 = [].
Proof.
  intros Hne.
  destruct (originMatches e st1) eqn:H1;
    [|left; now apply onWindowMessage_rejected].
  destruct (originMatches e st2) eqn:H2;
    [|right; now apply onWindowMessage_rejected].
  apply originMatches_spec in H1 as [H1 _].
  apply originMatches_spec in H2 as [H2 _]. congruence.
Qed.

Lemma message_reaches_one_instance_witness :
  onWindowMessage (player_message (JsString "hello")) armed_embed
  = [EmbedMessage (JsString "hello")]
  /\ onWindowMessage (player_message (JsString "hello"))
       (with_iframe (Some {| contentWindow := Some other_window |}) Embed_new)
     = [].
Proof.
  split; [reflexivity|].
  destruct (message_reaches_one_instance (player_message (JsString "hello"))
              armed_embed
              (with_iframe (Some {| contentWindow := Some other_window |})
                 Embed_new)) as [Hnone|Hnone].
  - discriminate.
  - discriminate Hnone.
  - exact Hnone.
Defined.

(** ** Where [postMessage] delivers *)

Section PostMessage.
Context `{Collaborators}.

(** X5: [postMessage] posts at most one message, only into the
    [contentWindow] of the instance's own iframe.  The returned promise is
    rejected exactly when the browsing context exists and either
    [JSON.stringify] refuses the message or the window refuses the target
    origin, and then nothing is posted. *)
Theorem postMessage_own_window_only (message : JsVal)
    (target : option string) (st : Embed) :
  match postMessage message target st with
  | Normal out =>
      out = [] /\ (forall w, iframe_contentWindow st <> RefWindow w)
      \/ exists w serialized,
           iframe_contentWindow st = RefWindow w /\
           JSON_stringify message = Normal serialized /\
           accepts_targetOrigin (coalesce_string target "*") = true /\
           out = [WindowPostMessage w serialized (coalesce_string target "*")]
  | Throw =>
      (exists w, iframe_contentWindow st = RefWindow w) /\
      (JSON_stringify message = Throw \/
       (exists serialized, JSON_stringify message = Normal serialized) /\
       accepts_targetOrigin (coalesce_string target "*") = false)
  end.
Proof.
  unfold postMessage, iframe_contentWindow.
  destruct (iframe st) as [[[w0|]]|]; try (left; split; [reflexivity|discriminate]).
  destruct (JSON_stringify message) as [s|] eqn:Hs.
  - destruct (accepts_targetOrigin _) eqn:Ht.
    + right. now exists w0, s.
    + split; [now exists w0|]. right. split; [now exists s | reflexivity].
  - split; [now exists w0 | now left].
Qed.

End PostMessage.

(** ** The composed URL *)

Section ComposedURL.
Context `{Collaborators}.

Implicit Types (g : Global) (st : Embed) (w : World).

Lemma connectedCallback_in_sync g st : in_sync (connectedCallback g st).1.2.
Proof.
  unfold in_sync. rewrite connectedCallback_state, srcChange_srcWithParams.
  now destruct (srcChange_frame g (with_intersectionObserverCleanup true st))
    as (_ & -> & -> & _).
Qed.

Lemma srcChange_in_sync g st : in_sync (srcChange g st).1.2.
Proof.
  unfold in_sync. rewrite srcChange_srcWithParams.
  now destruct (srcChange_frame g st) as (_ & -> & -> & _).
Qed.

Lemma srcChange_created g st :
  intersectionObserverCleanup (srcChange g st).1.2
  = intersectionObserverCleanup st.
Proof.
  unfold srcChange.
  now destruct (assign_srcWithParams_state
                  (appendParamsToURL (embedSrc st) (params st)) g st)
    as [[-> _]|[-> _]].
Qed.

(** Once the instance exists, it exists. *)
Lemma dispatch_created (op : Op) g st :
  created st = true -> created (dispatch op g st).1.2 = true.
Proof.
  intros Hc.
  destruct op; simpl; unfold run_watcher, created in *; simpl; try exact Hc.
  - rewrite connectedCallback_state.
    now rewrite (srcChange_created g (with_intersectionObserverCleanup true st)).
  - case_bool_decide; [exact Hc|]. rewrite Hc. now rewrite srcChange_created.
  - rewrite Hc. now rewrite srcChange_created.
  - rewrite Hc. now rewrite preconnectionsChange_state.
  - now destruct (postMessage _ _ _).
Qed.

(** On an instance that exists, no operation other than a change of
    [params] in place brings [srcWithParams] out of step with [embedSrc]
    and [params]. *)
Lemma dispatch_in_sync (op : Op) g st :
  created st = true ->
  (forall v, op <> MutateParams v) ->
  in_sync st -> in_sync (dispatch op g st).1.2.
Proof.
  intros Hc Hop Hs.
  destruct op; simpl; unfold run_watcher, created in *; simpl; try exact Hs.
  - apply connectedCallback_in_sync.
  - case_bool_decide; [exact Hs|]. rewrite Hc. apply srcChange_in_sync.
  - rewrite Hc. apply srcChange_in_sync.
  - rewrite Hc. now rewrite preconnectionsChange_state.
  - now destruct (postMessage _ _ _).
  - now destruct (Hop v).
Qed.

Lemma run_in_sync w (ops : list (nat * Op)) (i : nat) st :
  instance i w = Some st ->
  created st = true ->
  in_sync st ->
  Forall (fun a => mutates_params i a = false) ops ->
  exists st', instance i (run w ops) = Some st' /\ in_sync st'.
Proof.
  revert w st. induction ops as [|a ops IH]; intros w st Hi Hc Hs Hno.
  - now exists st.
  - apply Forall_cons in Hno as [Ha Hno].
    rewrite run_cons. destruct (decide (a.1 = i)) as [<-|Hne].
    + apply (IH _ _ (step_instance_eq w a st Hi)); [| |exact Hno].
      * now apply dispatch_created.
      * apply dispatch_in_sync; [exact Hc| |exact Hs].
        intros v Hop. unfold mutates_params in Ha.
        rewrite Nat.eqb_refl, Hop in Ha. discriminate.
    + apply (IH _ st); [now rewrite step_instance_ne | | |]; assumption.
Qed.

(** X6: from its [connectedCallback] on, and as long as its [params]
    object is replaced and not changed in place, [srcWithParams] of an
    instance is the composed URL of its current [embedSrc] and [params],
    whatever else happens on the page; a render then gives the iframe
    either no [src] or the URL composed from the current configuration. *)
Theorem composed_url_in_sync w (ops : list (nat * Op)) (i : nat) st :
  instance i w = Some st ->
  Forall (fun a => mutates_params i a = false) ops ->
  exists st',
    instance i (run w ((i, Connect) :: ops)) = Some st' /\
    srcWithParams st' = appendParamsToURL (embedSrc st') (params st') /\
    (attr_src (render st') = None \/
     attr_src (render st')
     = Some (appendParamsToURL (embedSrc st') (params st'))).
Proof.
  intros Hi Hno. rewrite run_cons.
  destruct (run_in_sync (step w (i, Connect)) ops i
              (connectedCallback (shared w) st).1.2) as (st' & Hi' & Hs').
  - exact (step_instance_eq w (i, Connect) st Hi).
  - unfold created. cbn [snd fst]. rewrite connectedCallback_state.
    now rewrite (srcChange_created (shared w)
                   (with_intersectionObserverCleanup true st)).
  - apply connectedCallback_in_sync.
  - exact Hno.
  - exists st'. split; [exact Hi'|]. split; [exact Hs'|].
    rewrite render_src. destruct (negb _ || _); [right|now left].
    now rewrite Hs'.
Qed.

(** X7: attaching an instance whose composed URL is already up to date
    registers the viewport observer and does nothing else: no
    [embedSrcChange], no [preconnect] call, the registry and the viewport
    flag are as before. *)
Theorem reconnect_is_silent g st :
  srcWithParams st = appendParamsToURL (embedSrc st) (params st) ->
  (connectedCallback g st).2 = [ObserveViewport] /\
  (connectedCallback g st).1.1 = g /\
  hasEnteredViewport (connectedCallback g st).1.2 = hasEnteredViewport st /\
  srcWithParams (connectedCallback g st).1.2 = srcWithParams st.
Proof.
  intros Hs.
  rewrite connectedCallback_effects, connectedCallback_global,
    connectedCallback_state, srcChange_effects, srcChange_global,
    srcChange_srcWithParams.
  destruct (srcChange_frame g (with_intersectionObserverCleanup true st))
    as (-> & _).
  simpl. rewrite <- Hs. now rewrite !bool_decide_eq_true_2.
Qed.

End ComposedURL.

Lemma composed_url_in_sync_witness :
  exists st',
    instance 0 (run scenario_world
                  [(0, Connect); (0, EntersViewport);
                   (0, SetEmbedSrc "https://player.example/embed/xyz");
                   (0, SetParams autoplay_as_string)]) = Some st'
    /\ attr_src (render st')
       = Some "https://player.example/embed/xyz?autoplay=1".
Proof.
  destruct (@composed_url_in_sync browser scenario_world
              [(0, EntersViewport);
               (0, SetEmbedSrc "https://player.example/embed/xyz");
               (0, SetParams autoplay_as_string)] 0 scenario_embed eq_refl)
    as (st' & Hst & _ & _).
  - repeat constructor.
  - exists st'. split; [exact Hst|].
    vm_compute in Hst. injection Hst as <-. reflexivity.
Defined.

(** The precondition of X6 is needed: after the [params] object was changed
    in place no watcher has run, and [srcWithParams] is the URL composed
    from the old content. *)
Remark params_changed_in_place_go_unnoticed :
  (srcWithParams <$>
     instance 0 (run scenario_world
                   [(0, Connect); (0, MutateParams [("autoplay", JsNumber 2)])]))
  = Some "https://player.example/embed/abc?autoplay=1"
  /\ history (run scenario_world
                [(0, Connect); (0, MutateParams [("autoplay", JsNumber 2)])])
     = history (run scenario_world [(0, Connect)]).
Proof. split; reflexivity. Qed.

Lemma reconnect_is_silent_witness :
  (@connectedCallback browser scenario_shared scenario_connected).2
  = [ObserveViewport].
Proof.
  apply (@reconnect_is_silent browser scenario_shared scenario_connected).
  reflexivity.
Defined.

(** ** The registry of connections *)

Section Registry.
Context `{Collaborators}.

Implicit Types (g : Global) (st : Embed) (w : World) (k : string).

Lemma preconnect_and_record_mono (key url : string) g k :
  k ∈ connected g -> k ∈ connected (preconnect_and_record key url g).1.
Proof.
  intros Hk. rewrite preconnect_and_record_connected.
  destruct (preconnect url (document g)).1; [|assumption].
  apply elem_of_union. now right.
Qed.

Lemma preconnect_each_mono (cs : list string) g k :
  k ∈ connected g -> k ∈ connected (preconnect_each cs g).1.
Proof.
  revert g. induction cs as [|c cs IH]; intros g Hk; [assumption|].
  rewrite preconnect_each_cons. cbn [fst].
  apply IH. now apply preconnect_and_record_mono.
Qed.

Lemma srcChange_mono g st k :
  k ∈ connected g -> k ∈ connected (srcChange g st).1.1.
Proof.
  intros Hk. rewrite srcChange_global. case_bool_decide; [assumption|].
  destruct (negb _ && _); [|assumption]. now apply preconnect_and_record_mono.
Qed.

Lemma dispatch_mono (op : Op) g st k :
  k ∈ connected g -> k ∈ connected (dispatch op g st).1.1.
Proof.
  intros Hk. destruct op; simpl; try assumption.
  - rewrite connectedCallback_global. now apply srcChange_mono.
  - case_bool_decide; [assumption|]. unfold run_watcher.
    destruct (created _); [now apply srcChange_mono | assumption].
  - unfold run_watcher.
    destruct (created _); [now apply srcChange_mono | assumption].
  - unfold run_watcher. destruct (created _); [|assumption].
    rewrite preconnectionsChange_global. simpl.
    destruct (hasEnteredViewport st); [assumption|]. now apply preconnect_each_mono.
  - now destruct (postMessage _ _ _).
Qed.

Lemma step_mono w (a : nat * Op) k :
  k ∈ connected (shared w) -> k ∈ connected (shared (step w a)).
Proof.
  intros Hk. destruct (instance a.1 w) as [st|] eqn:Hi.
  - rewrite (step_present _ _ _ Hi). simpl. now apply dispatch_mono.
  - now rewrite (step_absent _ _ Hi).
Qed.

(** X8: [connected] only grows: a key that is in it stays in it, whatever
    any instance does afterwards. *)
Theorem connected_only_grows w (ops : list (nat * Op)) k :
  k ∈ connected (shared w) -> k ∈ connected (shared (run w ops)).
Proof.
  revert w. induction ops as [|a ops IH]; intros w Hk; [assumption|].
  rewrite run_cons. apply IH. now apply step_mono.
Qed.

(** The calls [forEach] makes carry the entry as key and as URL. *)
Lemma preconnect_each_calls (cs : list string) g :
  preconnect_calls (preconnect_each cs g).2 = map (fun c => (c, c)) cs.
Proof.
  revert g. induction cs as [|c cs IH]; intros g; [reflexivity|].
  rewrite preconnect_each_cons. cbn [snd].
  rewrite preconnect_and_record_effects. simpl. unfold preconnect_calls in *.
  simpl. now rewrite IH.
Qed.

Lemma preconnect_calls_In (out : list Effect) (key url : string) (b : bool) :
  In (Preconnect key url b) out -> In (key, url) (preconnect_calls out).
Proof.
  intros Hin. apply list_elem_of_In. unfold preconnect_calls.
  apply list_elem_of_omap. exists (Preconnect key url b).
  split; [now apply list_elem_of_In | reflexivity].
Qed.

(** No operation calls [preconnect] under a key that is in [connected]. *)
Lemma dispatch_skips_recorded (op : Op) g st k (url : string) (b : bool) :
  k ∈ connected g -> ~ In (Preconnect k url b) (dispatch op g st).2.
Proof.
  intros Hk.
  assert (forall st0, ~ In (Preconnect k url b) (srcChange g st0).2) as Hsrc.
  { intros st0. rewrite srcChange_effects. case_bool_decide; [easy|].
    intros [Hin|[Hin|[]]]%in_app_iff; [|discriminate].
    destruct (negb (hasEnteredViewport st0)); simpl in Hin; [|easy].
    case_bool_decide as Hc; simpl in Hin; [easy|].
    rewrite preconnect_and_record_effects in Hin.
    destruct Hin as [[= Hkey _ _]|[]]. rewrite Hkey in Hc. contradiction. }
  destruct op; simpl; try (intros [?|?]; easy); try easy.
  - rewrite connectedCallback_effects. intros [?|Hin]; [discriminate|].
    now apply Hsrc in Hin.
  - unfold disconnectedCallback.
    destruct (intersectionObserverCleanup st); [intros [?|?]; easy | easy].
  - case_bool_decide; [easy|]. unfold run_watcher.
    destruct (created _); [apply Hsrc | easy].
  - unfold run_watcher. destruct (created _); [apply Hsrc | easy].
  - unfold run_watcher. destruct (created _); [|easy].
    rewrite preconnectionsChange_effects. simpl.
    destruct (hasEnteredViewport st); [easy|]. intros Hin.
    apply preconnect_calls_In in Hin. rewrite preconnect_each_calls in Hin.
    apply in_map_iff in Hin as (c & [= -> _] & Hin).
    apply list_elem_of_In, list_elem_of_filter in Hin as [Hc _]. contradiction.
  - unfold onWindowMessage. destruct (negb _); [easy|].
    destruct (ToBoolean _); [intros [?|?]; easy | easy].
  - destruct (postMessage message target st) as [out|] eqn:Hp; simpl; [|easy].
    unfold postMessage in Hp.
    destruct (iframe st) as [[[w0|]]|]; try (injection Hp as <-; easy).
    destruct (JSON_stringify message); [|discriminate].
    destruct (accepts_targetOrigin _); [|discriminate].
    injection Hp as <-. intros [?|?]; easy.
Qed.

(** X9: a key that is in [connected] when an operation starts is not
    passed to [preconnect] by that operation or by any later one, of any
    instance: neither for a composed URL whose [embedSrc] is the key nor for
    an entry of a [preconnections] list.  (A key recorded in the middle of
    one [preconnectionsChange] is not covered: the entries were filtered
    before the loop started.) *)
Theorem recorded_key_never_hinted_again w (ops : list (nat * Op)) k :
  k ∈ connected (shared w) ->
  exists new,
    history (run w ops) = history w ++ new /\
    forall (i : nat) (url : string) (b : bool),
      ~ In (i, Preconnect k url b) new.
Proof.
  revert w. induction ops as [|a ops IH]; intros w Hk.
  - exists []. split; [now rewrite app_nil_r | easy].
  - destruct (IH (step w a) (step_mono w a k Hk)) as (new & Hnew & Hno).
    rewrite run_cons, Hnew, step_history, <- app_assoc.
    eexists. split; [reflexivity|].
    intros i url b [Hin|Hin]%in_app_iff; [|now apply Hno in Hin].
    destruct (instance a.1 w) as [st|]; [|easy].
    apply in_map_iff in Hin as (e & [= _ ->] & Hin).
    now apply dispatch_skips_recorded in Hin.
Qed.

Lemma preconnect_and_record_sound (key url : string) g k :
  recorded k (preconnect_and_record key url g).1
  <= recorded k g + count_hints k (preconnect_and_record key url g).2.
Proof.
  unfold recorded.
  rewrite preconnect_and_record_effects, preconnect_and_record_connected.
  unfold count_hints. simpl.
  destruct (preconnect url (document g)).1; simpl;
    repeat case_bool_decide; simpl; try lia.
  exfalso. match goal with
           | Hin : _ ∈ {[_]} ∪ _ |- _ =>
               apply elem_of_union in Hin as [Hin%elem_of_singleton|Hin]
           end; congruence.
Qed.

Lemma preconnect_each_sound (cs : list string) g k :
  recorded k (preconnect_each cs g).1
  <= recorded k g + count_hints k (preconnect_each cs g).2.
Proof.
  revert g. induction cs as [|c cs IH]; intros g.
  - simpl. unfold count_hints. simpl. lia.
  - rewrite preconnect_each_cons. cbn [fst snd]. rewrite count_hints_app.
    pose proof (preconnect_and_record_sound c c g k).
    specialize (IH (preconnect_and_record c c g).1). lia.
Qed.

(** A key enters [connected] only together with a hint issued under it. *)
Lemma dispatch_sound (op : Op) g st k :
  recorded k (dispatch op g st).1.1
  <= recorded k g + count_hints k (dispatch op g st).2.
Proof.
  assert (forall st0,
            recorded k (srcChange g st0).1.1
            <= recorded k g + count_hints k (srcChange g st0).2) as Hsrc.
  { intros st0. rewrite srcChange_effects, srcChange_global.
    case_bool_decide; [lia|]. rewrite count_hints_app.
    destruct (negb _ && _); [|lia].
    pose proof (preconnect_and_record_sound (embedSrc st0)
                  (appendParamsToURL (embedSrc st0) (params st0)) g k).
    lia. }
  destruct op; simpl; try (unfold recorded, count_hints; simpl; lia).
  - rewrite connectedCallback_effects, connectedCallback_global.
    apply (Hsrc (with_intersectionObserverCleanup true st)).
  - case_bool_decide; [simpl; lia|]. unfold run_watcher.
    destruct (created _); [apply Hsrc | simpl; lia].
  - unfold run_watcher. destruct (created _); [apply Hsrc | simpl; lia].
  - unfold run_watcher. destruct (created _); [|simpl; lia].
    rewrite preconnectionsChange_effects, preconnectionsChange_global. simpl.
    destruct (hasEnteredViewport st); [lia|]. apply preconnect_each_sound.
  - destruct (postMessage message target st); simpl; lia.
Qed.

Lemma run_sound w (ops : list (nat * Op)) k :
  recorded k (shared w) <= hints_issued k (history w) ->
  recorded k (shared (run w ops)) <= hints_issued k (history (run w ops)).
Proof.
  revert w. induction ops as [|a ops IH]; intros w Hinv; [exact Hinv|].
  rewrite run_cons. apply IH.
  destruct (instance a.1 w) as [st|] eqn:Hi.
  - rewrite (step_present _ _ _ Hi). simpl. rewrite hints_issued_app.
    pose proof (dispatch_sound a.2 (shared w) st k). lia.
  - now rewrite (step_absent _ _ Hi).
Qed.

Lemma run_balanced w (ops : list (nat * Op)) k :
  Forall (fun a => forall l, a.2 = SetPreconnections l -> NoDup l) ops ->
  hints_issued k (history w) <= recorded k (shared w) ->
  hints_issued k (history (run w ops)) <= recorded k (shared (run w ops)).
Proof.
  revert w. induction ops as [|a ops IH]; intros w Hnd Hinv; [exact Hinv|].
  apply Forall_cons in Hnd as [Ha Hnd]. rewrite run_cons.
  apply (IH _ Hnd). now apply step_balanced.
Qed.

(** X10: on a page that starts with an empty registry, a key is in
    [connected] only if a [preconnect] call under that key returned [true]:
    a failed hint is never recorded. *)
Theorem registry_sound (doc : Document) (sts : list Embed)
    (ops : list (nat * Op)) k :
  k ∈ connected (shared (run (World_new doc sts) ops)) ->
  1 <= hints_issued k (history (run (World_new doc sts) ops)).
Proof.
  intros Hk.
  pose proof (run_sound (World_new doc sts) ops k) as Hs.
  unfold recorded in Hs at 2. rewrite (bool_decide_eq_true_2 _ Hk) in Hs.
  apply Hs. unfold recorded. simpl. rewrite bool_decide_eq_false_2; [lia|].
  apply not_elem_of_empty.
Qed.

(** X11: on a page that starts with an empty registry, and as long as no
    list assigned to [preconnections] has an entry twice, the registry is
    exact: one hint was issued under every key in [connected], and none
    under any other key. *)
Theorem registry_exact (doc : Document) (sts : list Embed)
    (ops : list (nat * Op)) k :
  Forall (fun a => forall l, a.2 = SetPreconnections l -> NoDup l) ops ->
  hints_issued k (history (run (World_new doc sts) ops))
  = if bool_decide (k ∈ connected (shared (run (World_new doc sts) ops)))
    then 1 else 0.
Proof.
  intros Hnd.
  pose proof (run_sound (World_new doc sts) ops k) as Hs.
  pose proof (run_balanced (World_new doc sts) ops k Hnd) as Hb.
  assert (recorded k (shared (World_new doc sts)) = 0) as Hr.
  { unfold recorded. simpl. rewrite bool_decide_eq_false_2; [reflexivity|].
    apply not_elem_of_empty. }
  assert (hints_issued k (history (World_new doc sts)) = 0) as Hh
    by reflexivity.
  unfold recorded in *. lia.
Qed.

End Registry.

Lemma connected_only_grows_witness :
  "https://player.example/embed/abc"
  ∈ connected (shared (run (run scenario_world [(0, Connect)])
                         [(0, SetEmbedSrc "https://player.example/embed/xyz");
                          (1, Connect); (0, EntersViewport)])).
Proof.
  apply (@connected_only_grows browser (run scenario_world [(0, Connect)])).
  refine (proj1 (bool_decide_eq_true _) _). vm_compute. reflexivity.
Defined.

Lemma recorded_key_never_hinted_again_witness :
  exists new,
    history (run (run scenario_world [(0, Connect)])
               [(1, Connect);
                (1, SetEmbedSrc "https://player.example/embed/abc");
                (1, SetPreconnections ["https://player.example/embed/abc"])])
    = history (run scenario_world [(0, Connect)]) ++ new /\
    forall (i : nat) (url : string) (b : bool),
      ~ In (i, Preconnect "https://player.example/embed/abc" url b) new.
Proof.
  apply (@recorded_key_never_hinted_again browser
           (run scenario_world [(0, Connect)])).
  refine (proj1 (bool_decide_eq_true _) _). vm_compute. reflexivity.
Defined.

Lemma registry_sound_witness :
  1 <= hints_issued "https://cdn.a"
         (history (run scenario_world
                     [(0, Connect);
                      (0, SetPreconnections ["https://cdn.a"; "https://cdn.a"])])).
Proof.
  apply (@registry_sound browser [] [scenario_embed; Embed_new]
           [(0, Connect);
            (0, SetPreconnections ["https://cdn.a"; "https://cdn.a"])]).
  refine (proj1 (bool_decide_eq_true _) _). vm_compute. reflexivity.
Defined.

Lemma registry_exact_witness :
  hints_issued "https://cdn.b"
    (history (run scenario_world
                [(0, Connect); (1, Connect);
                 (0, SetPreconnections ["https://cdn.a"; "https://cdn.b"]);
                 (1, SetPreconnections ["https://cdn.b"; "https://cdn.c"])]))
  = 1.
Proof.
  rewrite (@registry_exact browser [] [scenario_embed; Embed_new]
             [(0, Connect); (1, Connect);
              (0, SetPreconnections ["https://cdn.a"; "https://cdn.b"]);
              (1, SetPreconnections ["https://cdn.b"; "https://cdn.c"])]).
  - vm_compute. reflexivity.
  - repeat constructor; intros l [= <-]; repeat constructor;
      rewrite ?list_elem_of_In; simpl; intuition discriminate.
Defined.

(** ** What [preconnectionsChange] calls *)

Section Preconnections.
Context `{Collaborators}.

Implicit Types (g : Global) (st : Embed) (k : string).

Lemma preconnect_each_length (cs : list string) g :
  length (preconnect_each cs g).2 = length cs.
Proof.
  revert g. induction cs as [|c cs IH]; intros g; [reflexivity|].
  rewrite preconnect_each_cons. cbn [snd].
  rewrite preconnect_and_record_effects. simpl. now rewrite IH.
Qed.

(** X12: before viewport entry, [preconnectionsChange] calls [preconnect]
    once for every entry of the list that is not in [connected] when the
    method starts, in the order of the list, with the entry as URL, and
    does nothing else; entries that are in [connected] are skipped. *)
Theorem preconnectionsChange_calls g st :
  hasEnteredViewport st = false ->
  preconnect_calls (preconnectionsChange g st).2
  = map (fun c => (c, c))
        (filter (fun c => c ∉ connected g) (preconnections st)) /\
  length (preconnectionsChange g st).2
  = length (filter (fun c => c ∉ connected g) (preconnections st)).
Proof.
  intros Hf. rewrite preconnectionsChange_effects, Hf.
  split; [apply preconnect_each_calls | apply preconnect_each_length].
Qed.




End Preconnections.

Lemma preconnectionsChange_calls_witness :
  preconnect_calls
    (@preconnectionsChange browser scenario_shared
       (with_preconnections
          ["https://cdn.a"; "https://player.example/embed/abc";
           "https://cdn.b"] scenario_connected)).2
  = [("https://cdn.a", "https://cdn.a"); ("https://cdn.b", "https://cdn.b")].
Proof.
  destruct (@preconnectionsChange_calls browser scenario_shared
              (with_preconnections
                 ["https://cdn.a"; "https://player.example/embed/abc";
                  "https://cdn.b"] scenario_connected) eq_refl)
    as [Hcalls _].
  rewrite Hcalls. vm_compute. reflexivity.
Defined.


(** ** The ids of the iframes *)

Section Ids.
Context `{Collaborators}.

Implicit Types (g : Global) (st : Embed) (w : World).

Lemma append_inj_l (p a b : string) : (p ++ a = p ++ b)%string -> a = b.
Proof. induction p as [|c p IH]; simpl; [easy|]. intros [= Heq]. auto. Qed.

(** Different counter values give different ids. *)
Lemma iframe_id_inj (n m : nat) : iframe_id n = iframe_id m -> n = m.
Proof.
  unfold iframe_id. intros Heq%append_inj_l.
  apply (f_equal NilEmpty.uint_of_string) in Heq.
  rewrite !NilEmpty.usu in Heq. injection Heq as Heq.
  apply (f_equal Nat.of_uint) in Heq. now rewrite !Unsigned.of_to in Heq.
Qed.

Lemma preconnect_and_record_idCount (key url : string) g :
  idCount (preconnect_and_record key url g).1 = idCount g.
Proof.
  unfold preconnect_and_record. now destruct (preconnect url (document g)).
Qed.

Lemma preconnect_each_idCount (cs : list string) g :
  idCount (preconnect_each cs g).1 = idCount g.
Proof.
  revert g. induction cs as [|c cs IH]; intros g; [reflexivity|].
  rewrite preconnect_each_cons. cbn [fst].
  now rewrite IH, preconnect_and_record_idCount.
Qed.

Lemma srcChange_idCount g st : idCount (srcChange g st).1.1 = idCount g.
Proof.
  rewrite srcChange_global. case_bool_decide; [reflexivity|].
  destruct (negb _ && _); [apply preconnect_and_record_idCount | reflexivity].
Qed.

Lemma srcChange_id g st : id (srcChange g st).1.2 = id st.
Proof.
  unfold srcChange.
  now destruct (assign_srcWithParams_state
                  (appendParamsToURL (embedSrc st) (params st)) g st)
    as [[-> _]|[-> _]].
Qed.

(** Only [componentWillLoad] writes [id] and [idCount]. *)
Lemma dispatch_id (op : Op) g st :
  match op with
  | WillLoad =>
      id (dispatch op g st).1.2 = Some (iframe_id (S (idCount g))) /\
      idCount (dispatch op g st).1.1 = S (idCount g)
  | _ =>
      id (dispatch op g st).1.2 = id st /\
      idCount (dispatch op g st).1.1 = idCount g
  end.
Proof.
  destruct op; simpl; try (split; reflexivity).
  - rewrite connectedCallback_state, connectedCallback_global.
    now rewrite srcChange_id, srcChange_idCount.
  - case_bool_decide; [split; reflexivity|]. unfold run_watcher.
    destruct (created _); [|split; reflexivity].
    now rewrite srcChange_id, srcChange_idCount.
  - unfold run_watcher. destruct (created _); [|split; reflexivity].
    now rewrite srcChange_id, srcChange_idCount.
  - unfold run_watcher. destruct (created _); [|split; reflexivity].
    rewrite preconnectionsChange_state, preconnectionsChange_global. simpl.
    destruct (hasEnteredViewport st); [split; reflexivity|].
    now rewrite preconnect_each_idCount.
  - now destruct (postMessage _ _ _).
Qed.

(** The ids and the counter before and after one step. *)
Lemma step_ids_cases w (a : nat * Op) :
  (idCount (shared (step w a)) = idCount (shared w) /\
   forall (i : nat) st',
     instance i (step w a) = Some st' ->
     exists st, instance i w = Some st /\ id st' = id st)
  \/
  (idCount (shared (step w a)) = S (idCount (shared w)) /\
   forall (i : nat) st',
     instance i (step w a) = Some st' ->
     exists st,
       instance i w = Some st /\
       if decide (i = a.1)
       then id st' = Some (iframe_id (S (idCount (shared w))))
       else id st' = id st).
Proof.
  destruct (instance a.1 w) as [sta|] eqn:Ha.
  2:{ left. rewrite (step_absent _ _ Ha). split; [reflexivity|]. eauto. }
  pose proof (dispatch_id a.2 (shared w) sta) as Hd.
  pose proof (step_instance_eq w a sta Ha) as Heq.
  assert (idCount (shared (step w a))
          = idCount (dispatch a.2 (shared w) sta).1.1) as Hc
    by now rewrite (step_present _ _ _ Ha).
  destruct a.2 eqn:Hop;
    try (left; destruct Hd as [Hid Hcount]; split; [congruence|];
         intros i st' Hi; destruct (decide (a.1 = i)) as [<-|Hne];
         [exists sta; split; [assumption|congruence]
         |exists st'; split; [now rewrite <- (step_instance_ne w a i Hne)
                             |reflexivity]]).
  right. destruct Hd as [Hid Hcount]. split; [congruence|].
  intros i st' Hi. destruct (decide (i = a.1)) as [->|Hne].
  - exists sta. split; [assumption|]. congruence.
  - exists st'. split; [|reflexivity].
    now rewrite <- (step_instance_ne w a i) by congruence.
Qed.

Lemma step_ids_well_formed w (a : nat * Op) :
  ids_well_formed w -> ids_well_formed (step w a).
Proof.
  intros [Hform Hdiff].
  destruct (step_ids_cases w a) as [[Hc Hst]|[Hc Hst]]; split.
  - intros i st' s Hi Hid. destruct (Hst i st' Hi) as (st & Hi0 & Heq).
    rewrite Heq in Hid. rewrite Hc. now apply (Hform i st s).
  - intros i j sti stj s Hne Hi Hj Hidi.
    destruct (Hst i sti Hi) as (sti0 & Hi0 & Heqi).
    destruct (Hst j stj Hj) as (stj0 & Hj0 & Heqj).
    rewrite Heqi in Hidi. rewrite Heqj. now apply (Hdiff i j sti0 stj0 s).
  - intros i st' s Hi Hid. destruct (Hst i st' Hi) as (st & Hi0 & Heq).
    rewrite Hc. destruct (decide (i = a.1)) as [->|Hne].
    + exists (S (idCount (shared w))). split; [lia | congruence].
    + rewrite Heq in Hid. destruct (Hform i st s Hi0 Hid) as (n & Hn & ->).
      exists n. split; [lia | reflexivity].
  - intros i j sti stj s Hne Hi Hj Hidi Hidj.
    destruct (Hst i sti Hi) as (sti0 & Hi0 & Heqi).
    destruct (Hst j stj Hj) as (stj0 & Hj0 & Heqj).
    destruct (decide (i = a.1)) as [Hia|Hia], (decide (j = a.1)) as [Hja|Hja].
    + congruence.
    + rewrite Heqj in Hidj. destruct (Hform j stj0 s Hj0 Hidj) as (n & Hn & ->).
      assert (n = S (idCount (shared w))) by (apply iframe_id_inj; congruence).
      lia.
    + rewrite Heqi in Hidi. destruct (Hform i sti0 s Hi0 Hidi) as (n & Hn & ->).
      assert (n = S (idCount (shared w))) by (apply iframe_id_inj; congruence).
      lia.
    + rewrite Heqi in Hidi. rewrite Heqj in Hidj.
      now apply (Hdiff i j sti0 stj0 s).
Qed.

(** X14: on a page whose instances start without an id, after any run
    every id is [vime-iframe-n] for a counter value [n] between [1] and
    [idCount], and no two instances hold the same id, also when
    [componentWillLoad] runs more than once on an instance. *)
Theorem iframe_ids_unique (doc : Document) (sts : list Embed)
    (ops : list (nat * Op)) :
  Forall (fun st => id st = None) sts ->
  ids_well_formed (run (World_new doc sts) ops).
Proof.
  intros Hnone.
  assert (ids_well_formed (World_new doc sts)) as Hinit.
  { assert (forall (i : nat) st s,
              instance i (World_new doc sts) = Some st -> id st <> Some s)
      as Hfresh.
    { intros i st s Hi. rewrite Forall_forall in Hnone.
      rewrite (Hnone st); [discriminate|].
      apply list_elem_of_lookup. now exists i. }
    split.
    - intros i st s Hi Hid. now apply (Hfresh i st s) in Hid.
    - intros i j sti stj s _ _ Hj _. now apply (Hfresh j). }
  revert Hinit. generalize (World_new doc sts).
  induction ops as [|a ops IH]; intros w Hw; [exact Hw|].
  rewrite run_cons. apply IH. now apply step_ids_well_formed.
Qed.

End Ids.

Lemma iframe_ids_unique_witness :
  (attr_id ∘ render <$>
     instances (run scenario_world
                  [(0, WillLoad); (1, WillLoad); (0, Connect); (0, WillLoad)]))
  = [Some "vime-iframe-3"; Some "vime-iframe-2"]
  /\ ids_well_formed
       (run scenario_world
          [(0, WillLoad); (1, WillLoad); (0, Connect); (0, WillLoad)]).
Proof.
  split; [reflexivity|].
  apply (@iframe_ids_unique browser [] [scenario_embed; Embed_new]).
  repeat constructor.
Defined.

(** ** The viewport observer *)

Section Observer.
Context `{Collaborators}.

Implicit Types (g : Global) (st : Embed) (w : World).

Lemma preconnect_each_kind (cs : list string) g (e : Effect) :
  In e (preconnect_each cs g).2 -> is_preconnect e = true.
Proof.
  revert g. induction cs as [|c cs IH]; intros g; [easy|].
  rewrite preconnect_each_cons. cbn [snd].
  rewrite preconnect_and_record_effects.
  intros [<-|Hin]; [reflexivity | now apply IH in Hin].
Qed.

(** [srcChange] calls [preconnect] and emits [embedSrcChange], nothing
    else. *)
Lemma srcChange_kind g st (e : Effect) :
  In e (srcChange g st).2 ->
  is_preconnect e = true \/ exists url, e = EmbedSrcChange url.
Proof.
  rewrite srcChange_effects. case_bool_decide; [easy|].
  intros [Hin|[<-|[]]]%in_app_iff; [|eauto].
  destruct (negb _ && _); [|easy].
  rewrite preconnect_and_record_effects in Hin.
  destruct Hin as [<-|[]]. now left.
Qed.

Lemma srcChange_cleanup g st :
  intersectionObserverCleanup (srcChange g st).1.2
  = intersectionObserverCleanup st.
Proof.
  unfold srcChange.
  now destruct (assign_srcWithParams_state
                  (appendParamsToURL (embedSrc st) (params st)) g st)
    as [[-> _]|[-> _]].
Qed.

(** The cleanup is only called by an instance that holds one. *)
Lemma dispatch_dispose (op : Op) g st :
  In DisposeObserver (dispatch op g st).2 ->
  intersectionObserverCleanup st = true.
Proof.
  assert (forall st0, ~ In DisposeObserver (srcChange g st0).2) as Hsrc.
  { intros st0 [?|[? ?]]%srcChange_kind; discriminate. }
  destruct op; simpl; try (intros [?|[]]; discriminate); try easy.
  - rewrite connectedCallback_effects. intros [?|Hin]; [discriminate|].
    now apply Hsrc in Hin.
  - unfold disconnectedCallback.
    now destruct (intersectionObserverCleanup st).
  - case_bool_decide; [easy|]. unfold run_watcher.
    destruct (created _); [|easy]. intros Hin. now apply Hsrc in Hin.
  - unfold run_watcher. destruct (created _); [|easy].
    intros Hin. now apply Hsrc in Hin.
  - unfold run_watcher. destruct (created _); [|easy].
    rewrite preconnectionsChange_effects. simpl.
    destruct (hasEnteredViewport st); [easy|].
    intros Hin%preconnect_each_kind. discriminate.
  - unfold onWindowMessage. destruct (negb _); [easy|].
    destruct (ToBoolean _); [intros [?|[]]; discriminate | easy].
  - destruct (postMessage message target st) as [out|] eqn:Hp; simpl; [|easy].
    unfold postMessage in Hp.
    destruct (iframe st) as [[[w0|]]|]; try (injection Hp as <-; easy).
    destruct (JSON_stringify message); [|discriminate].
    destruct (accepts_targetOrigin _); [|discriminate].
    injection Hp as <-. intros [?|[]]; discriminate.
Qed.

(** An instance comes to hold a cleanup only by registering. *)
Lemma dispatch_cleanup (op : Op) g st :
  intersectionObserverCleanup (dispatch op g st).1.2 = true ->
  intersectionObserverCleanup st = true \/
  In ObserveViewport (dispatch op g st).2.
Proof.
  destruct op; simpl; try (now left).
  - intros _. right. rewrite connectedCallback_effects. now left.
  - case_bool_decide; [now left|]. unfold run_watcher.
    destruct (created _); [|now left]. rewrite srcChange_cleanup. now left.
  - unfold run_watcher. destruct (created _); [|now left].
    rewrite srcChange_cleanup. now left.
  - unfold run_watcher. destruct (created _); [|now left].
    rewrite preconnectionsChange_state. now left.
  - destruct (postMessage _ _ _); now left.
Qed.

Lemma app_split_at {A : Type} (h new h1 h2 : list A) (x : A) :
  h ++ new = h1 ++ x :: h2 ->
  (exists h2', h = h1 ++ x :: h2') \/
  (exists n1, h1 = h ++ n1 /\ new = n1 ++ x :: h2).
Proof.
  revert h1. induction h as [|y h IH]; intros h1 Heq.
  - right. now exists h1.
  - destruct h1 as [|z h1]; simpl in Heq; injection Heq as -> Heq.
    + left. now exists h.
    + destruct (IH h1 Heq) as [[h2' ->]|(n1 & -> & ->)].
      * left. now exists h2'.
      * right. now exists n1.
Qed.

Lemma step_observers_accounted w (a : nat * Op) :
  observers_accounted w -> observers_accounted (step w a).
Proof.
  intros Hw. destruct (instance a.1 w) as [sta|] eqn:Ha.
  2:{ now rewrite (step_absent _ _ Ha). }
  intros i. destruct (Hw i) as [Hord Hheld].
  assert (history (step w a)
          = history w ++ map (pair a.1) (dispatch a.2 (shared w) sta).2)
    as Hh by now rewrite step_history, Ha.
  split.
  - intros h1 h2 Heq. rewrite Hh in Heq.
    apply app_split_at in Heq as [[h2' Heq]|(n1 & -> & Hnew)].
    + now apply (Hord h1 h2').
    + apply in_or_app. left.
      assert (In (i, DisposeObserver)
                (map (pair a.1) (dispatch a.2 (shared w) sta).2)) as Hin
        by (rewrite Hnew; apply in_or_app; right; now left).
      apply in_map_iff in Hin as (e & [= Hi ->] & Hin).
      apply dispatch_dispose in Hin. subst i. now apply (Hheld sta).
  - intros st' Hi Hc. rewrite Hh. apply in_or_app.
    destruct (decide (a.1 = i)) as [<-|Hne].
    + rewrite (step_instance_eq w a sta Ha) in Hi. injection Hi as <-.
      apply dispatch_cleanup in Hc as [Hc|Hin].
      * left. now apply (Hheld sta).
      * right. now apply in_map.
    + left. rewrite (step_instance_ne w a i Hne) in Hi. now apply (Hheld st').
Qed.

(** X15: on a page whose instances start without a cleanup function, the
    observer's cleanup is never called by an instance before that instance
    has called [onElementEntersViewport]: [disconnectedCallback] before the
    first [connectedCallback] does nothing. *)
Theorem cleanup_only_after_registration (doc : Document) (sts : list Embed)
    (ops : list (nat * Op)) (i : nat) :
  Forall (fun st => intersectionObserverCleanup st = false) sts ->
  disposes_after_observing i (history (run (World_new doc sts) ops)).
Proof.
  intros Hnone.
  assert (observers_accounted (World_new doc sts)) as Hinit.
  { intros j. split.
    - intros h1 h2 Heq. simpl in Heq. now destruct h1.
    - intros st Hj Hc. rewrite Forall_forall in Hnone.
      rewrite (Hnone st) in Hc; [discriminate|].
      apply list_elem_of_lookup. now exists j. }
  enough (observers_accounted (run (World_new doc sts) ops)) as Hrun
    by apply Hrun.
  revert Hinit. generalize (World_new doc sts).
  induction ops as [|a ops IH]; intros w Hw; [exact Hw|].
  rewrite run_cons. apply IH. now apply step_observers_accounted.
Qed.

End Observer.

Lemma cleanup_only_after_registration_witness :
  history (run scenario_world [(0, Disconnect); (0, Connect); (0, Disconnect)])
  = [(0, ObserveViewport);
     (0, Preconnect "https://player.example/embed/abc"
           "https://player.example/embed/abc?autoplay=1" true);
     (0, EmbedSrcChange "https://player.example/embed/abc?autoplay=1");
     (0, DisposeObserver)]
  /\ disposes_after_observing 0
       (history (run scenario_world
                   [(0, Disconnect); (0, Connect); (0, Disconnect)])).
Proof.
  split; [reflexivity|].
  apply (@cleanup_only_after_registration browser [] [scenario_embed; Embed_new]).
  repeat constructor.
Defined.

(** ** The [embedSrcChange] notifications *)

Section Notifications.
Context `{Collaborators}.

Implicit Types (g : Global) (st : Embed) (w : World).

Lemma embedSrcChanges_app (out out' : list Effect) :
  embedSrcChanges (out ++ out') = embedSrcChanges out ++ embedSrcChanges out'.
Proof. unfold embedSrcChanges. apply omap_app. Qed.

Lemma preconnect_each_silent (cs : list string) g :
  embedSrcChanges (preconnect_each cs g).2 = [].
Proof.
  revert g. induction cs as [|c cs IH]; intros g; [reflexivity|].
  rewrite preconnect_each_cons. cbn [snd].
  rewrite embedSrcChanges_app, IH, preconnect_and_record_effects. reflexivity.
Qed.

Lemma srcChange_notifies g st :
  embedSrcChanges (srcChange g st).2
  = if bool_decide (srcWithParams (srcChange g st).1.2 = srcWithParams st)
    then [] else [srcWithParams (srcChange g st).1.2].
Proof.
  rewrite srcChange_effects, srcChange_srcWithParams.
  case_bool_decide; [reflexivity|]. rewrite embedSrcChanges_app.
  destruct (negb _ && _); [rewrite preconnect_and_record_effects|];
    reflexivity.
Qed.

(** An operation emits [embedSrcChange] exactly when it changes
    [srcWithParams], and then with the new value. *)
Lemma dispatch_notifies (op : Op) g st :
  embedSrcChanges (dispatch op g st).2
  = if bool_decide (srcWithParams (dispatch op g st).1.2 = srcWithParams st)
    then [] else [srcWithParams (dispatch op g st).1.2].
Proof.
  destruct op; simpl;
    try (rewrite bool_decide_eq_true_2 by reflexivity; reflexivity).
  - rewrite connectedCallback_effects, connectedCallback_state.
    apply (srcChange_notifies g (with_intersectionObserverCleanup true st)).
  - unfold disconnectedCallback. rewrite bool_decide_eq_true_2 by reflexivity.
    now destruct (intersectionObserverCleanup st).
  - case_bool_decide.
    + simpl. now rewrite bool_decide_eq_true_2.
    + unfold run_watcher. destruct (created _).
      * apply (srcChange_notifies g (with_embedSrc v st)).
      * simpl. now rewrite bool_decide_eq_true_2.
  - unfold run_watcher. destruct (created _).
    + apply (srcChange_notifies g (with_params v st)).
    + simpl. now rewrite bool_decide_eq_true_2.
  - unfold run_watcher. destruct (created _).
    + rewrite preconnectionsChange_effects, preconnectionsChange_state. simpl.
      rewrite bool_decide_eq_true_2 by reflexivity.
      destruct (hasEnteredViewport st); [reflexivity|].
      apply preconnect_each_silent.
    + simpl. now rewrite bool_decide_eq_true_2.
  - rewrite bool_decide_eq_true_2 by reflexivity.
    unfold onWindowMessage. destruct (negb _); [reflexivity|].
    now destruct (ToBoolean _).
  - destruct (postMessage message target st) as [out|] eqn:Hp; simpl;
      rewrite bool_decide_eq_true_2 by reflexivity; [|reflexivity].
    unfold postMessage in Hp.
    destruct (iframe st) as [[[w0|]]|]; try (now injection Hp as <-).
    destruct (JSON_stringify message); [|discriminate].
    destruct (accepts_targetOrigin _); [|discriminate].
    now injection Hp as <-.
Qed.

Lemma notified_urls_app (i j : nat) (h : list (nat * Effect))
    (out : list Effect) :
  notified_urls i (h ++ map (pair j) out)
  = notified_urls i h ++ if Nat.eqb j i then embedSrcChanges out else [].
Proof.
  unfold notified_urls, effects_of.
  rewrite List.filter_app, map_app, embedSrcChanges_app. f_equal.
  destruct (Nat.eqb j i) eqn:Hji.
  - f_equal. induction out as [|e out IH]; [reflexivity|].
    simpl. rewrite Hji. simpl. now rewrite IH.
  - induction out as [|e out IH]; [reflexivity|].
    simpl. now rewrite Hji.
Qed.

Lemma no_repeat_snoc (l : list string) (x : string) :
  no_repeat l -> last l <> Some x -> no_repeat (l ++ [x]).
Proof.
  induction l as [|y l IH]; intros Hl Hlast.
  - simpl. split; [discriminate | exact I].
  - destruct Hl as [Hhead Hl]. destruct l as [|z l].
    + simpl. split; [|split; [discriminate | exact I]].
      intros [= ->]. now apply Hlast.
    + split; [exact Hhead|]. apply IH; [exact Hl|].
      now rewrite last_cons_cons in Hlast.
Qed.

Lemma step_notifications w (a : nat * Op) :
  notifications_follow_changes w -> notifications_follow_changes (step w a).
Proof.
  intros Hw. destruct (instance a.1 w) as [sta|] eqn:Ha.
  2:{ now rewrite (step_absent _ _ Ha). }
  intros i. destruct (Hw i) as [Hrep Hlast].
  assert (history (step w a)
          = history w ++ map (pair a.1) (dispatch a.2 (shared w) sta).2)
    as -> by now rewrite step_history, Ha.
  rewrite notified_urls_app. destruct (Nat.eqb_spec a.1 i) as [<-|Hne].
  - rewrite dispatch_notifies.
    rewrite (step_instance_eq w a sta Ha).
    destruct (Hlast sta Ha) as [Hnil|Hl]; case_bool_decide as Hsame.
    + rewrite app_nil_r. split; [exact Hrep|]. intros st' [= <-]. now left.
    + rewrite Hnil. simpl. split; [split; [discriminate | exact I]|].
      intros st' [= <-]. now right.
    + rewrite app_nil_r. split; [exact Hrep|]. intros st' [= <-].
      right. congruence.
    + split.
      * apply no_repeat_snoc; [exact Hrep|]. congruence.
      * intros st' [= <-]. right. apply last_snoc.
  - rewrite app_nil_r. split; [exact Hrep|]. intros st' Hi.
    rewrite (step_instance_ne w a i Hne) in Hi. now apply Hlast.
Qed.

(** On a page that starts with an empty history, no instance ever emits
    [embedSrcChange] with the same URL twice in a row, and the URL an
    instance notified last is its current [srcWithParams]. *)
Lemma notifications_track_changes (doc : Document) (sts : list Embed)
    (ops : list (nat * Op)) :
  notifications_follow_changes (run (World_new doc sts) ops).
Proof.
  assert (notifications_follow_changes (World_new doc sts)) as Hinit.
  { intros i. split; [exact I|]. intros st _. now left. }
  revert Hinit. generalize (World_new doc sts).
  induction ops as [|a ops IH]; intros w Hw; [exact Hw|].
  rewrite run_cons. apply IH. now apply step_notifications.
Qed.

(** The notifications one step adds for instance [i]. *)
Lemma step_notified w (a : nat * Op) (i : nat) :
  notified_urls i (history (step w a))
  = notified_urls i (history w) ++
    match srcWithParams <$> instance i w,
          srcWithParams <$> instance i (step w a) with
    | Some before, Some after =>
        if bool_decide (after = before) then [] else [after]
    | _, _ => []
    end.
Proof.
  destruct (instance a.1 w) as [sta|] eqn:Ha.
  - rewrite step_history, Ha, notified_urls_app.
    destruct (Nat.eqb_spec a.1 i) as [<-|Hne].
    + rewrite (step_instance_eq w a sta Ha), Ha. simpl.
      now rewrite dispatch_notifies.
    + rewrite (step_instance_ne w a i Hne).
      destruct (instance i w) as [st|]; simpl; [|reflexivity].
      now rewrite bool_decide_eq_true_2.
  - rewrite (step_absent _ _ Ha).
    destruct (instance i w) as [st|]; simpl;
      [rewrite bool_decide_eq_true_2 by reflexivity|]; now rewrite app_nil_r.
Qed.

(** X16: the [embedSrcChange] notifications of an instance are exactly the
    changes of its [srcWithParams]: along any run, every step that changes
    [srcWithParams] adds one notification carrying the new value, and no
    other step adds any. *)
Theorem notifications_are_the_changes w (ops : list (nat * Op)) (i : nat) :
  notified_urls i (history (run w ops))
  = notified_urls i (history w) ++ srcWithParams_changes i w ops.
Proof.
  revert w. induction ops as [|a ops IH]; intros w.
  - simpl. now rewrite app_nil_r.
  - rewrite run_cons, IH, step_notified. cbn [srcWithParams_changes].
    now rewrite app_assoc.
Qed.

End Notifications.

(** A run of the scenario: the composed URL changes on attachment and on
    the change of [embedSrc], and those are the two notifications; the
    replacement of [params] that composes the same URL, the change in place
    and the viewport entry add none. *)
Remark notifications_of_the_scenario :
  notified_urls 0
    (history (run scenario_world
                [(0, Connect); (0, SetParams autoplay_as_string);
                 (0, EntersViewport);
                 (0, SetEmbedSrc "https://player.example/embed/xyz");
                 (0, MutateParams [])]))
  = ["https://player.example/embed/abc?autoplay=1";
     "https://player.example/embed/xyz?autoplay=1"].
Proof. reflexivity. Qed.
